(** * A persistent copy-on-write trie and its versioned store

    Shallow embedding of [src/trie/src.hpp] (namespace [sjtu]): the classes
    [TrieNode], [TrieNodeWithValue<T>], [Trie], [ValueGuard<T>] and
    [TrieStore].

    The C++ code shares nodes through [std::shared_ptr] and compares tries by
    the identity of their root pointer, so the embedding keeps an explicit
    node heap: an address is an index into a list of nodes, [make_shared] and
    [make_unique] allocate at the end of that list, and a null pointer is
    [None].  Nothing is ever freed in the model (every node stays owned by
    the snapshot that reaches it).

    An operation that dereferences a null or an unallocated pointer has no
    defined behaviour in C++; such an operation returns [None] here, and a
    defined run returns [Some] of its result. *)

From Stdlib Require Import Ascii ZArith Lia.
From Stdlib Require String.
From stdpp Require Import base option list gmap strings fin_maps.

(** ** Addresses and the node layer *)

(** The target of a [std::shared_ptr<const TrieNode>]. *)
Abbreviation addr := nat.

(** The value types of the examples: [int] and [std::string]. *)
Inductive cpp_type : Set := cpp_int | cpp_string.

#[global] Instance cpp_type_eq_dec : EqDecision cpp_type.
Proof. solve_decision. Defined.

Section Trie.

(** [type_id] is the run-time identity of the template argument [T] of
    [TrieNodeWithValue<T>] (what [dynamic_pointer_cast] compares); [V] is the
    type-erased payload that a [std::shared_ptr<T>] owns. *)
Context {type_id : Type} `{!EqDecision type_id} {V : Type}.

(** [children_] and [is_value_node_] are the fields of [TrieNode].  [value_]
    is [Some (T, v)] exactly when the dynamic class of the node is
    [TrieNodeWithValue<T>] and its [value_] field points to [v]; it is [None]
    for a plain [TrieNode]. *)
Record TrieNode : Type := mkTrieNode {
  children_ : gmap ascii addr;
  is_value_node_ : bool;
  value_ : option (type_id * V)
}.

(** [TrieNode() = default]. *)
Definition TrieNode_default : TrieNode :=
  {| children_ := ∅; is_value_node_ := false; value_ := None |}.

(** [explicit TrieNode(std::map<...> children)]. *)
Definition TrieNode_of (children : gmap ascii addr) : TrieNode :=
  {| children_ := children; is_value_node_ := false; value_ := None |}.

(** [explicit TrieNodeWithValue(std::shared_ptr<T> value)]. *)
Definition TrieNodeWithValue_leaf (T : type_id) (value : V) : TrieNode :=
  {| children_ := ∅; is_value_node_ := true; value_ := Some (T, value) |}.

(** [TrieNodeWithValue(std::map<...> children, std::shared_ptr<T> value)]. *)
Definition TrieNodeWithValue_of (T : type_id) (children : gmap ascii addr)
    (value : V) : TrieNode :=
  {| children_ := children; is_value_node_ := true; value_ := Some (T, value) |}.

(** The virtual [Clone]: the override of [TrieNodeWithValue<T>] keeps the
    children and the value, the base version keeps the children only. *)
Definition Clone (n : TrieNode) : TrieNode :=
  match value_ n with
  | Some (T, v) => TrieNodeWithValue_of T (children_ n) v
  | None => TrieNode_of (children_ n)
  end.

(** Assignment to the [children_] field of a node that is still private to
    the running operation. *)
Definition set_children (n : TrieNode) (children : gmap ascii addr) : TrieNode :=
  {| children_ := children; is_value_node_ := is_value_node_ n; value_ := value_ n |}.

(** ** The heap *)

(** Memory: the node stored at every allocated address. *)
Abbreviation heap := (list TrieNode).

(** [std::make_shared] / [std::make_unique]: the new object lives at the first
    unused address. *)
Definition alloc (h : heap) (n : TrieNode) : heap * addr := (h ++ [n], length h).

(** ** Trie *)

(** [root_] is [None] for the null pointer of a default-constructed trie. *)
Record Trie : Type := mkTrie { root_ : option addr }.

(** [Trie() = default]. *)
Definition Trie_default : Trie := {| root_ := None |}.

(** [operator==]: identity of the two root pointers. *)
Definition Trie_eq (a b : Trie) : bool := bool_decide (root_ a = root_ b).

(** The [for (char c : key)] loop of [Trie::Get], started at [node].
    [Some None] is the early [return nullptr] for a missing child,
    [Some (Some a)] the node the loop ends on. *)
Fixpoint Get_loop (h : heap) (node : addr) (key : string) : option (option addr) :=
  match key with
  | EmptyString => Some (Some node)
  | String c key' =>
      n ← h !! node;
      match children_ n !! c with
      | None => Some None
      | Some child => Get_loop h child key'
      end
  end.

(** The tail of [Trie::Get<T>] on the node the loop ended on: test
    [is_value_node_], cast to [TrieNodeWithValue<T>] and read [value_]
    through the result of the cast without testing it.  A failed cast yields
    a null pointer, whose dereference is undefined. *)
Definition node_value (n : TrieNode) (T : type_id) : option (option V) :=
  if is_value_node_ n then
    match value_ n with
    | Some (T', v) => if decide (T' = T) then Some (Some v) else None
    | None => None
    end
  else Some None.

Definition Get_value (h : heap) (node : addr) (T : type_id) : option (option V) :=
  n ← h !! node; node_value n T.

(** The body of [Trie::Get<T>] after the null test of the root, started at
    [node]. *)
Definition Get_from (h : heap) (node : addr) (key : string) (T : type_id)
    : option (option V) :=
  r ← Get_loop h node key;
  match r with
  | None => Some None
  | Some a => Get_value h a T
  end.

(** [Trie::Get<T>(key)]: [Some (Some v)] is a pointer to the stored [v],
    [Some None] is [nullptr]. *)
Definition Get (h : heap) (t : Trie) (key : string) (T : type_id) : option (option V) :=
  match root_ t with
  | None => Some None
  | Some root => Get_from h root key T
  end.

(** The right-hand sides of the four [children[c] = ...] assignments in the
    loop of [Trie::Put<T>]: [n] is the node the loop stands on and [last] is
    the test [i == key.size() - 1].  The copy made from
    [children[c]->children_] is a real copy, because the child is a pointer
    to a [const] node. *)
Definition Put_child (h : heap) (n : TrieNode) (c : ascii) (last : bool)
    (T : type_id) (value : V) : option TrieNode :=
  match children_ n !! c with
  | None =>
      Some (if last then TrieNodeWithValue_leaf T value else TrieNode_default)
  | Some child =>
      cn ← h !! child;
      Some (if last then TrieNodeWithValue_of T (children_ cn) value else Clone cn)
  end.

(** The loop of [Trie::Put<T>], with [key] the part of the key from index [i]
    on and [node] the freshly made node the loop is standing on.  Inside the
    loop the key is not empty, so [i == key.size() - 1] holds exactly when no
    further character follows. *)
Fixpoint Put_loop (h : heap) (node : addr) (key : string) (T : type_id) (value : V)
    : option heap :=
  match key with
  | EmptyString => Some h
  | String c key' =>
      n ← h !! node;
      new ← Put_child h n c (bool_decide (key' = EmptyString)) T value;
      let '(h1, a) := alloc h new in
      let h2 := <[node := set_children n (<[c := a]> (children_ n))]> h1 in
      Put_loop h2 a key' T value
  end.

(** The first statement of [Trie::Put] and of [Trie::Remove(key)]:
    [root_ ? root_->Clone() : std::make_unique<TrieNode>(TrieNode())]. *)
Definition clone_root (h : heap) (t : Trie) : option (heap * addr) :=
  match root_ t with
  | Some root => n ← h !! root; Some (alloc h (Clone n))
  | None => Some (alloc h TrieNode_default)
  end.

(** [Trie::Put<T>(key, value)]. *)
Definition Put (h : heap) (t : Trie) (key : string) (T : type_id) (value : V)
    : option (heap * Trie) :=
  '(h1, new_root) ← clone_root h t;
  h2 ← Put_loop h1 new_root key T value;
  Some (h2, {| root_ := Some new_root |}).

(** The recursive [Trie::Remove(node, pos, key)], with [key] the part of the
    key from index [pos] on: [pos == key.size()] holds exactly when that part
    is empty.  [node] is a private clone, so the code updates it in place;
    [std::move(node->children_)] leaves it with an empty map. *)
Fixpoint Remove_rec (h : heap) (node : addr) (pos : nat) (key : string)
    : option (heap * option addr) :=
  match key with
  | EmptyString =>
      n ← h !! node;
      if negb (is_value_node_ n) then Some (h, Some node)
      else if bool_decide (pos ≠ 0) && bool_decide (children_ n = ∅) then Some (h, None)
      else
        let h1 := <[node := set_children n ∅]> h in
        let '(h2, new_node) := alloc h1 (TrieNode_of (children_ n)) in
        Some (h2, Some new_node)
  | String c key' =>
      n ← h !! node;
      match children_ n !! c with
      | None => Some (h, Some node)
      | Some child =>
          cn ← h !! child;
          let '(h1, clone) := alloc h (Clone cn) in
          '(h2, new_child) ← Remove_rec h1 clone (S pos) key';
          n2 ← h2 !! node;
          let children :=
            match new_child with
            | None => delete c (children_ n2)
            | Some a => <[c := a]> (children_ n2)
            end in
          let h3 := <[node := set_children n2 children]> h2 in
          if bool_decide (pos ≠ 0) && bool_decide (children = ∅)
             && negb (is_value_node_ n2)
          then Some (h3, None)
          else Some (h3, Some node)
      end
  end.

(** [Trie::Remove(key)]. *)
Definition Remove (h : heap) (t : Trie) (key : string) : option (heap * Trie) :=
  '(h1, new_root) ← clone_root h t;
  '(h2, new_node) ← Remove_rec h1 new_root 0 key;
  Some (h2, {| root_ := new_node |}).

(** ** ValueGuard and TrieStore *)

(** [ValueGuard<T>]: the trie it keeps alive and the value it refers to. *)
Record ValueGuard : Type := mkValueGuard {
  guard_root_ : Trie;
  guard_value_ : V
}.

(** The state of a [TrieStore]: the vector [snapshots_], together with the
    memory its tries live in.  The two mutexes have no sequential content. *)
Record TrieStore : Type := mkTrieStore {
  store_heap : heap;
  snapshots_ : list Trie
}.

(** [std::vector<Trie> snapshots_ { 1 }]: one default-constructed trie. *)
Definition TrieStore_init : TrieStore :=
  {| store_heap := []; snapshots_ := [Trie_default] |}.

(** [size_t] is taken to be 64 bits wide; [SIZE_MAX] is what the default
    argument [-1] converts to. *)
Definition size_t_modulus : Z := 2 ^ 64.
Definition SIZE_MAX : Z := size_t_modulus - 1.

(** [get_version]: [snapshots_.size() - 1] in [size_t] arithmetic. *)
Definition get_version (s : TrieStore) : Z :=
  (Z.of_nat (length (snapshots_ s)) - 1) `mod` size_t_modulus.

(** [TrieStore::Get<T>(key, version)].  A call that leaves [version] out
    passes [SIZE_MAX]. *)
Definition TrieStore_Get (s : TrieStore) (key : string) (T : type_id) (version : Z)
    : option (option ValueGuard) :=
  let version := if bool_decide (version = SIZE_MAX) then get_version s else version in
  if bool_decide (Z.of_nat (length (snapshots_ s)) ≤ version)%Z then Some None
  else
    trie ← snapshots_ s !! Z.to_nat version;
    value ← Get (store_heap s) trie key T;
    match value with
    | None => Some None
    | Some v => Some (Some {| guard_root_ := trie; guard_value_ := v |})
    end.

(** [TrieStore::Put<T>(key, value)]; [snapshots_.back()] of an empty vector
    is undefined. *)
Definition TrieStore_Put (s : TrieStore) (key : string) (T : type_id) (value : V)
    : option (TrieStore * Z) :=
  back ← last (snapshots_ s);
  '(h, new_trie) ← Put (store_heap s) back key T value;
  let s' := {| store_heap := h; snapshots_ := snapshots_ s ++ [new_trie] |} in
  Some (s', get_version s').

(** [TrieStore::Remove(key)]; its local [new_version] is never read. *)
Definition TrieStore_Remove (s : TrieStore) (key : string) : option (TrieStore * Z) :=
  back ← last (snapshots_ s);
  '(h, new_trie) ← Remove (store_heap s) back key;
  if Trie_eq new_trie back
  then
    let s' := {| store_heap := h; snapshots_ := snapshots_ s |} in
    Some (s', get_version s')
  else
    let s' := {| store_heap := h; snapshots_ := snapshots_ s ++ [new_trie] |} in
    Some (s', get_version s').

(** ** Well-formed memory *)

(** A node as the constructors make it: the flag [is_value_node_] is set
    exactly in a [TrieNodeWithValue], and every child pointer is below
    [bound]. *)
Definition node_wf (bound : nat) (n : TrieNode) : Prop :=
  is_value_node_ n = bool_decide (is_Some (value_ n)) ∧
  map_Forall (λ _ b, b < bound) (children_ n).

(** Every child pointer of every node points to an allocated node. *)
Definition heap_wf (h : heap) : Prop := Forall (node_wf (length h)) h.

(** The root pointer is null or points to an allocated node. *)
Definition Trie_valid (h : heap) (t : Trie) : Prop :=
  match root_ t with Some r => r < length h | None => True end.

Definition TrieStore_wf (s : TrieStore) : Prop :=
  heap_wf (store_heap s) ∧ Forall (Trie_valid (store_heap s)) (snapshots_ s) ∧
  snapshots_ s ≠ [].

(** [h'] still has every node of the first [bound] addresses of [h]. *)
Definition agree_below (bound : nat) (h h' : heap) : Prop :=
  ∀ a, a < bound → h' !! a = h !! a.

(** [node] is a node that the running operation made and still owns: it was
    allocated after the heap [h0] the operation started from, it holds [n],
    and all children of [n] are nodes of [h0]. *)
Definition private_node (h0 h : heap) (node : addr) (n : TrieNode) : Prop :=
  heap_wf h0 ∧ heap_wf h ∧ agree_below (length h0) h0 h ∧
  length h0 ≤ node ∧ h !! node = Some n ∧ node_wf (length h0) n.

(** The node that path [p] leads to from the root of [t], as the loop of
    [Get] finds it: [Some None] when there is none. *)
Definition Trie_node (h : heap) (t : Trie) (p : string) : option (option addr) :=
  match root_ t with
  | None => Some None
  | Some root => Get_loop h root p
  end.

(** A node that [Remove] sees no reason to drop: it carries a value or it
    has a child. *)
Definition node_live (n : TrieNode) : Prop :=
  is_value_node_ n = true ∨ children_ n ≠ ∅.

(** [key] leads from node [n] to a node that carries a value. *)
Fixpoint key_present (h : heap) (n : TrieNode) (key : string) : Prop :=
  match key with
  | EmptyString => is_value_node_ n = true
  | String c key' =>
      ∃ x m, children_ n !! c = Some x ∧ h !! x = Some m ∧ key_present h m key'
  end.

(** What [Get<T>(key)] answers from a node that holds [n] when the children
    of [n] are nodes of [h]. *)
Definition node_view (h : heap) (n : TrieNode) (key : string) (T : type_id)
    : option (option V) :=
  match key with
  | EmptyString => node_value n T
  | String c key' =>
      match children_ n !! c with
      | None => Some None
      | Some x => Get_from h x key' T
      end
  end.

(** Where a path of at least one character leads from such a node. *)
Definition node_walk (h : heap) (n : TrieNode) (p : string) : option (option addr) :=
  match p with
  | EmptyString => Some None
  | String c p' =>
      match children_ n !! c with
      | None => Some None
      | Some x => Get_loop h x p'
      end
  end.

(** A trie without dead branches: every node below the root carries a value
    or has a child. *)
Definition trie_pruned (h : heap) (t : Trie) : Prop :=
  ∀ p a n, p ≠ EmptyString → Trie_node h t p = Some (Some a) →
    h !! a = Some n → node_live n.

(** Path [p] is an initial part of [key]. *)
Fixpoint on_path (p key : string) : bool :=
  match p, key with
  | EmptyString, _ => true
  | String a p', String c key' => bool_decide (a = c) && on_path p' key'
  | String _ _, EmptyString => false
  end.

#[global] Instance node_wf_dec b n : Decision (node_wf b n).
Proof. unfold node_wf. apply _. Defined.

#[global] Instance heap_wf_dec h : Decision (heap_wf h).
Proof. unfold heap_wf. apply _. Defined.

#[global] Instance Trie_valid_dec h t : Decision (Trie_valid h t).
Proof. unfold Trie_valid. destruct (root_ t); apply _. Defined.

#[global] Instance TrieStore_wf_dec s : Decision (TrieStore_wf s).
Proof. unfold TrieStore_wf. apply _. Defined.

End Trie.

(** ** Example memories *)

(** A heap holding the trie with the one key "ab", of type [int], and the
    trie itself. *)
Definition example_heap : list (@TrieNode cpp_type Z) :=
  [ {| children_ := {[ "a"%char := 1 ]}; is_value_node_ := false; value_ := None |};
    {| children_ := {[ "b"%char := 2 ]}; is_value_node_ := false; value_ := None |};
    {| children_ := ∅; is_value_node_ := true; value_ := Some (cpp_int, 7%Z) |} ].

Definition example_trie : Trie := {| root_ := Some 0 |}.

(** A heap holding the trie with the one key "abc", and the trie itself. *)
Definition example_heap_abc : list (@TrieNode cpp_type Z) :=
  [ {| children_ := {[ "a"%char := 1 ]}; is_value_node_ := false; value_ := None |};
    {| children_ := {[ "b"%char := 2 ]}; is_value_node_ := false; value_ := None |};
    {| children_ := {[ "c"%char := 3 ]}; is_value_node_ := false; value_ := None |};
    {| children_ := ∅; is_value_node_ := true; value_ := Some (cpp_int, 2%Z) |} ].

Definition example_trie_abc : Trie := {| root_ := Some 0 |}.

(** An empty heap and a store just constructed, at these value types. *)
Definition empty_heap : list (@TrieNode cpp_type Z) := [].

Definition fresh_store : @TrieStore cpp_type Z := TrieStore_init.

(** A store whose latest snapshot is that trie. *)
Definition example_store : @TrieStore cpp_type Z :=
  {| store_heap := example_heap; snapshots_ := [Trie_default; example_trie] |}.

(** Evaluates a test of the run-time type against itself or against a
    different type. *)
Ltac case_cast :=
  match goal with
  | |- context [match ?d with left _ => _ | right _ => _ end] =>
      destruct d; [try reflexivity; try congruence|try reflexivity; try congruence]
  end.

(** Settles a decidable statement about concrete data by evaluation. *)
Ltac by_evaluation := apply (bool_decide_unpack _); vm_compute; exact I.

(** * Properties *)

Section TrieProperties.

Context {type_id : Type} `{!EqDecision type_id} {V : Type}.

Local Abbreviation TrieNode := (@TrieNode type_id V).
Local Abbreviation TrieNode_default := (@TrieNode_default type_id V).
Local Abbreviation TrieNode_of := (@TrieNode_of type_id V).
Local Abbreviation TrieStore := (@TrieStore type_id V).
Local Abbreviation TrieStore_init := (@TrieStore_init type_id V).
Local Abbreviation heap := (list TrieNode).

Implicit Types (h : heap) (n m new : TrieNode) (s : TrieStore) (a node : addr)
  (key p : string) (T U : type_id) (v : V).

(** ** Nodes and heaps *)

Lemma node_wf_mono b b' n : node_wf b n → b ≤ b' → node_wf b' n.
Proof.
  intros [Hv Hc] Hle. split; [done|].
  intros c x Hx. specialize (Hc c x Hx). simpl in *. lia.
Qed.

Lemma node_wf_child b n c x : node_wf b n → children_ n !! c = Some x → x < b.
Proof. intros [_ Hc] Hx. exact (Hc c x Hx). Qed.

Lemma heap_wf_lookup h a n : heap_wf h → h !! a = Some n → node_wf (length h) n.
Proof. intros Hwf Ha. exact (proj1 (Forall_lookup _ _) Hwf a n Ha). Qed.

Lemma node_wf_default b : node_wf b TrieNode_default.
Proof. split; [done|]. apply map_Forall_empty. Qed.

Lemma node_wf_leaf b T v : node_wf b (TrieNodeWithValue_leaf T v).
Proof. split; [done|]. apply map_Forall_empty. Qed.

Lemma node_wf_plain b n : node_wf b n → node_wf b (TrieNode_of (children_ n)).
Proof. intros [_ Hc]. split; done. Qed.

Lemma node_wf_with_value b n T v :
  node_wf b n → node_wf b (TrieNodeWithValue_of T (children_ n) v).
Proof. intros [_ Hc]. split; done. Qed.

Lemma node_wf_Clone b n : node_wf b n → node_wf b (Clone n).
Proof.
  intros [_ Hc]. unfold Clone. destruct (value_ n) as [[T v]|]; split; done.
Qed.

Lemma node_wf_set_insert b n c x :
  node_wf b n → x < b → node_wf b (set_children n (<[c := x]> (children_ n))).
Proof.
  intros [Hv Hc] Hx. split; [done|]. simpl. by apply map_Forall_insert_2.
Qed.

Lemma node_wf_set_delete b n c :
  node_wf b n → node_wf b (set_children n (delete c (children_ n))).
Proof.
  intros [Hv Hc]. split; [done|]. simpl. by apply map_Forall_delete.
Qed.

Lemma node_wf_set_empty b n : node_wf b n → node_wf b (set_children n ∅).
Proof. intros [Hv _]. split; [done|]. apply map_Forall_empty. Qed.

(** Allocation keeps a heap well formed when the new node points into it. *)
Lemma heap_wf_alloc h n : heap_wf h → node_wf (length h) n → heap_wf (h ++ [n]).
Proof.
  intros Hwf Hn. unfold heap_wf. rewrite length_app. simpl.
  apply Forall_app. split.
  - eapply Forall_impl; [exact Hwf|]. intros m Hm. eapply node_wf_mono; [done|lia].
  - constructor; [|constructor]. eapply node_wf_mono; [done|lia].
Qed.

(** So does an assignment to a node. *)
Lemma heap_wf_insert h a n : heap_wf h → node_wf (length h) n → heap_wf (<[a := n]> h).
Proof.
  intros Hwf Hn. unfold heap_wf. rewrite length_insert.
  by apply Forall_insert.
Qed.

Lemma agree_below_refl b h : agree_below b h h.
Proof. by intros a _. Qed.

Lemma agree_below_trans b b' h1 h2 h3 :
  agree_below b h1 h2 → agree_below b' h2 h3 → b ≤ b' → agree_below b h1 h3.
Proof.
  intros H12 H23 Hle a Ha. rewrite H23 by lia. by apply H12.
Qed.

Lemma agree_below_length b h h' : agree_below b h h' → b ≤ length h → b ≤ length h'.
Proof.
  intros Hag Hle. destruct b as [|b]; [lia|].
  assert (is_Some (h' !! b)) as Hs.
  { rewrite Hag by lia. apply lookup_lt_is_Some. lia. }
  apply lookup_lt_is_Some in Hs. lia.
Qed.

(** ** Reads only depend on the nodes they can reach *)

Lemma Get_loop_frame h0 h a p :
  heap_wf h0 → agree_below (length h0) h0 h → a < length h0 →
  Get_loop h a p = Get_loop h0 a p.
Proof.
  intros Hwf Hag. revert a. induction p as [|c p IH]; intros a Ha; [done|].
  simpl. rewrite Hag by done.
  destruct (h0 !! a) as [n|] eqn:Hn; [|done]. simpl.
  destruct (children_ n !! c) as [x|] eqn:Hx; [|done].
  apply IH. eapply node_wf_child; [|done]. by eapply heap_wf_lookup.
Qed.

Lemma Get_loop_bound h a p b :
  heap_wf h → a < length h → Get_loop h a p = Some (Some b) → b < length h.
Proof.
  intros Hwf. revert a. induction p as [|c p IH]; intros a Ha; simpl.
  - intros [= <-]. exact Ha.
  - destruct (h !! a) as [n|] eqn:Hn; [|done]. simpl.
    destruct (children_ n !! c) as [x|] eqn:Hx; [|done].
    apply IH. eapply node_wf_child; [|done]. by eapply heap_wf_lookup.
Qed.

Lemma Get_from_cons h a c key T :
  Get_from h a (String c key) T =
  n ← h !! a;
  match children_ n !! c with
  | None => Some None
  | Some x => Get_from h x key T
  end.
Proof.
  unfold Get_from. simpl. destruct (h !! a) as [n|]; [|done]. simpl.
  by destruct (children_ n !! c).
Qed.

Lemma Get_value_frame b h h' a T :
  agree_below b h h' → a < b → Get_value h' a T = Get_value h a T.
Proof. intros Hag Ha. unfold Get_value. by rewrite Hag. Qed.

(** ** One round of the loop of [Put] *)

Lemma private_node_lt h0 h node n : private_node h0 h node n → node < length h.
Proof. intros (_&_&_&_&Hn&_). by eapply lookup_lt_Some. Qed.

Lemma private_node_old h0 h node n x :
  private_node h0 h node n → x < length h0 →
  ∃ m, h !! x = Some m ∧ h0 !! x = Some m ∧ node_wf (length h0) m.
Proof.
  intros (Hwf0&_&Hag&_&_&_) Hx.
  destruct (lookup_lt_is_Some_2 h0 x Hx) as [m Hm].
  exists m. split_and!; [by rewrite Hag|done|by eapply heap_wf_lookup].
Qed.

Lemma Put_child_spec h0 h node n c last T v :
  private_node h0 h node n →
  ∃ new, Put_child h n c last T v = Some new ∧ node_wf (length h0) new.
Proof.
  intros Hp. pose proof Hp as (_&_&_&_&_&Hn). unfold Put_child.
  destruct (children_ n !! c) as [x|] eqn:Hx.
  - destruct (private_node_old _ _ _ _ x Hp) as (m&Hm&_&Hmwf).
    { by eapply node_wf_child. }
    rewrite Hm. simpl. eexists; split; [done|].
    destruct last; [by apply node_wf_with_value|by apply node_wf_Clone].
  - eexists; split; [done|].
    destruct last; [apply node_wf_leaf|apply node_wf_default].
Qed.

Lemma private_node_step h0 h node n c new :
  private_node h0 h node n → node_wf (length h0) new →
  let a := length h in
  let n' := set_children n (<[c := a]> (children_ n)) in
  let h2 := <[node := n']> (h ++ [new]) in
  private_node h0 h2 a new ∧ h2 !! node = Some n' ∧
  (∀ x, x < length h → x ≠ node → h2 !! x = h !! x) ∧
  length h2 = S (length h).
Proof.
  intros Hp Hnew a n' h2. pose proof (private_node_lt _ _ _ _ Hp) as Hlt.
  destruct Hp as (Hwf0&Hwf&Hag&Hge&Hn&Hnwf).
  assert (length h0 ≤ length h) as Hle by lia.
  assert (length h2 = S (length h)) as Hlen.
  { unfold h2. rewrite length_insert, length_app. simpl. lia. }
  split_and!; [split_and!|..]; try done.
  - unfold h2. apply heap_wf_insert.
    + apply heap_wf_alloc; [done|]. eapply node_wf_mono; [done|lia].
    + rewrite length_app. simpl. apply node_wf_set_insert.
      * eapply node_wf_mono; [done|lia].
      * unfold a. lia.
  - intros x Hx. unfold h2.
    rewrite list_lookup_insert_ne by lia.
    rewrite lookup_app_l by lia. by apply Hag.
  - unfold h2. rewrite list_lookup_insert_ne by (unfold a; lia).
    unfold a. by rewrite lookup_app_r, Nat.sub_diag by lia.
  - unfold h2. apply list_lookup_insert_eq. rewrite length_app. simpl. lia.
  - intros x Hx Hne. unfold h2.
    rewrite list_lookup_insert_ne by done. by rewrite lookup_app_l.
Qed.

(** The loop always runs to its end on a private node; it only writes to
    that node and to nodes it allocates; the node keeps its value and
    changes at most the child slot of the first character. *)
Lemma Put_loop_spec h0 key T v : ∀ h node n,
  private_node h0 h node n →
  ∃ h' n', Put_loop h node key T v = Some h' ∧
    heap_wf h' ∧ length h ≤ length h' ∧
    (∀ x, x < length h → x ≠ node → h' !! x = h !! x) ∧
    h' !! node = Some n' ∧
    is_value_node_ n' = is_value_node_ n ∧ value_ n' = value_ n ∧
    children_ n' =
      match key with
      | EmptyString => children_ n
      | String c _ => <[c := length h]> (children_ n)
      end.
Proof.
  induction key as [|c key IH]; intros h node n Hp.
  - exists h, n. pose proof Hp as (_&Hwf&_&_&Hn&_). by split_and!.
  - simpl. pose proof Hp as (_&_&_&_&Hn&_). rewrite Hn. simpl.
    destruct (Put_child_spec _ _ _ _ c (bool_decide (key = EmptyString)) T v Hp)
      as (new&Hnew&Hnewwf).
    rewrite Hnew. simpl.
    destruct (private_node_step _ _ _ _ c new Hp Hnewwf) as (Hp2&Hnode&Hfr&Hlen).
    destruct (IH _ _ _ Hp2) as (h'&n'&Hrun&Hwf'&Hle&Hfr'&_).
    pose proof (private_node_lt _ _ _ _ Hp) as Hlt.
    exists h', (set_children n (<[c := length h]> (children_ n))).
    split_and!; try done.
    + lia.
    + intros x Hx Hne. rewrite Hfr' by lia. by apply Hfr.
    + rewrite Hfr' by lia. done.
Qed.

Lemma Get_from_frame h0 h a key T :
  heap_wf h0 → agree_below (length h0) h0 h → a < length h0 →
  Get_from h a key T = Get_from h0 a key T.
Proof.
  intros Hwf Hag Ha. unfold Get_from. rewrite (Get_loop_frame h0 h) by done.
  destruct (Get_loop h0 a key) as [[b|]|] eqn:Hb; try done. simpl.
  eapply Get_value_frame; [done|]. by eapply Get_loop_bound.
Qed.

Lemma node_value_Clone b n T : node_wf b n → node_value (Clone n) T = node_value n T.
Proof.
  intros [Hv _]. unfold node_value, Clone. rewrite Hv.
  by destruct (value_ n) as [[T' v]|].
Qed.

Lemma Clone_children n : children_ (Clone n) = children_ n.
Proof. unfold Clone. by destruct (value_ n) as [[T v]|]. Qed.

(** The children of the node made for slot [c] are those of the node that
    was there. *)
Lemma Put_child_children h n c last T v new :
  Put_child h n c last T v = Some new →
  children_ new =
    match children_ n !! c with
    | None => ∅
    | Some x => from_option children_ ∅ (h !! x)
    end.
Proof.
  unfold Put_child. destruct (children_ n !! c) as [x|].
  - destruct (h !! x) as [cn|]; [|done]. simpl. intros [= <-].
    destruct last; [done|apply Clone_children].
  - intros [= <-]. by destruct last.
Qed.

Lemma Put_child_last h n c T v new :
  Put_child h n c true T v = Some new →
  is_value_node_ new = true ∧ value_ new = Some (T, v).
Proof.
  unfold Put_child. destruct (children_ n !! c) as [x|].
  - destruct (h !! x) as [cn|]; [|done]. simpl. by intros [= <-].
  - by intros [= <-].
Qed.

(** One round unfolded: what the loop does to the heap before it moves on to
    the node it made. *)
Lemma Put_loop_unfold h0 h node n c key T v h' :
  private_node h0 h node n →
  Put_loop h node (String c key) T v = Some h' →
  ∃ new h2,
    Put_child h n c (bool_decide (key = EmptyString)) T v = Some new ∧
    private_node h0 h2 (length h) new ∧
    Put_loop h2 (length h) key T v = Some h' ∧
    h' !! node = Some (set_children n (<[c := length h]> (children_ n))) ∧
    heap_wf h' ∧ agree_below (length h0) h0 h'.
Proof.
  intros Hp Hrun. simpl in Hrun.
  pose proof Hp as (_&_&Hag&Hge&Hn&_). rewrite Hn in Hrun. simpl in Hrun.
  destruct (Put_child_spec _ _ _ _ c (bool_decide (key = EmptyString)) T v Hp)
    as (new&Hnew&Hnewwf).
  rewrite Hnew in Hrun. simpl in Hrun.
  destruct (private_node_step _ _ _ _ c new Hp Hnewwf) as (Hp2&Hnode&Hfr&Hlen).
  pose proof (private_node_lt _ _ _ _ Hp) as Hlt.
  destruct (Put_loop_spec h0 key T v _ _ _ Hp2) as (h''&n'&Hrun'&Hwf'&Hle&Hfr'&_).
  rewrite Hrun in Hrun'. injection Hrun' as <-.
  eexists new, _. split_and!; try done.
  - rewrite Hfr' by lia. done.
  - intros x Hx. rewrite Hfr' by lia.
    pose proof Hp2 as (_&_&Hag2&_). by apply Hag2.
Qed.

(** ** What the loop of [Put] builds *)

(** Along the key the loop leaves a chain of nodes of its own making. *)
Lemma Put_loop_fresh h0 key T v : ∀ h node n h' p,
  private_node h0 h node n →
  Put_loop h node key T v = Some h' →
  on_path p key = true →
  ∃ a, Get_loop h' node p = Some (Some a) ∧ length h0 ≤ a.
Proof.
  induction key as [|c key IH]; intros h node n h' p Hp Hrun Hon.
  - destruct p; [|done]. exists node. split; [done|]. by destruct Hp as (_&_&_&?&_).
  - destruct p as [|c' p].
    { exists node. split; [done|]. by destruct Hp as (_&_&_&?&_). }
    simpl in Hon. apply andb_prop in Hon as [Hc Hon].
    apply bool_decide_eq_true in Hc as ->.
    destruct (Put_loop_unfold _ _ _ _ _ _ _ _ _ Hp Hrun)
      as (new&h2&_&Hp2&Hrun2&Hnode&_).
    simpl. rewrite Hnode. simpl. rewrite lookup_insert_eq.
    by eapply IH.
Qed.

(** Away from the key the loop leaves every path where it led before. *)
Lemma Put_loop_shared h0 key T v : ∀ h node n h' p,
  private_node h0 h node n →
  Put_loop h node key T v = Some h' →
  on_path p key = false →
  Get_loop h' node p = Get_loop h node p.
Proof.
  induction key as [|c key IH]; intros h node n h' p Hp Hrun Hon.
  - simpl in Hrun. by injection Hrun as <-.
  - destruct p as [|c' p]; [done|].
    destruct (Put_loop_unfold _ _ _ _ _ _ _ _ _ Hp Hrun)
      as (new&h2&Hnew&Hp2&Hrun2&Hnode&Hwf'&Hag').
    pose proof Hp as (Hwf0&_&Hag&_&Hn&Hnwf).
    simpl. rewrite Hnode, Hn. simpl.
    destruct (decide (c' = c)) as [->|Hne].
    + rewrite lookup_insert_eq.
      simpl in Hon. rewrite bool_decide_eq_true_2 in Hon by done. simpl in Hon.
      rewrite (IH _ _ _ _ _ Hp2 Hrun2 Hon).
      destruct p as [|c2 p]; [by destruct key|].
      pose proof Hp2 as (_&_&Hag2&_&Hnew2&_).
      simpl. rewrite Hnew2. simpl.
      rewrite (Put_child_children _ _ _ _ _ _ _ Hnew).
      destruct (children_ n !! c) as [x|] eqn:Hx; [|done].
      destruct (private_node_old _ _ _ _ x Hp) as (m&Hm&_&Hmwf).
      { by eapply node_wf_child. }
      rewrite Hm. simpl.
      destruct (children_ m !! c2) as [y|] eqn:Hy; [|done].
      assert (y < length h0) by (by eapply node_wf_child).
      rewrite (Get_loop_frame h0 h2), (Get_loop_frame h0 h); done.
    + rewrite lookup_insert_ne by done.
      destruct (children_ n !! c') as [x|] eqn:Hx; [|done].
      assert (x < length h0) by (by eapply node_wf_child).
      rewrite (Get_loop_frame h0 h'), (Get_loop_frame h0 h); done.
Qed.

(** At the end of a non-empty key the loop leaves a node with the value. *)
Lemma Put_loop_terminal h0 key T v : ∀ h node n h',
  private_node h0 h node n →
  Put_loop h node key T v = Some h' →
  key ≠ EmptyString →
  ∃ b nb, Get_loop h' node key = Some (Some b) ∧ h' !! b = Some nb ∧
    is_value_node_ nb = true ∧ value_ nb = Some (T, v).
Proof.
  induction key as [|c key IH]; intros h node n h' Hp Hrun Hne; [done|].
  destruct (Put_loop_unfold _ _ _ _ _ _ _ _ _ Hp Hrun)
    as (new&h2&Hnew&Hp2&Hrun2&Hnode&_).
  simpl. rewrite Hnode. simpl. rewrite lookup_insert_eq.
  destruct key as [|c2 key].
  - simpl in Hrun2. injection Hrun2 as <-.
    rewrite bool_decide_eq_true_2 in Hnew by done.
    apply Put_child_last in Hnew as [Hv1 Hv2].
    pose proof Hp2 as (_&_&_&_&Hnew2&_).
    exists (length h), new. by split_and!.
  - by eapply IH.
Qed.

(** The view from the node made for slot [c] is the view from the node that
    was there, except at the end of the key. *)
Lemma Put_child_view h0 h node n c last T v new h2 k U :
  private_node h0 h node n →
  Put_child h n c last T v = Some new →
  private_node h0 h2 (length h) new →
  (last = true → k ≠ EmptyString) →
  Get_from h2 (length h) k U =
    match children_ n !! c with
    | None => Some None
    | Some x => Get_from h x k U
    end.
Proof.
  intros Hp Hnew Hp2 Hk.
  pose proof Hp as (Hwf0&_&Hag&_&Hn&Hnwf).
  pose proof Hp2 as (_&_&Hag2&_&Hnew2&_).
  destruct k as [|c2 k].
  - destruct last; [by destruct Hk|].
    unfold Get_from, Get_value. simpl. rewrite Hnew2. simpl.
    unfold Put_child in Hnew.
    destruct (children_ n !! c) as [x|] eqn:Hx.
    + destruct (private_node_old _ _ _ _ x Hp) as (m&Hm&_&Hmwf).
      { by eapply node_wf_child. }
      rewrite Hm in Hnew |- *. simpl in *. injection Hnew as <-.
      by eapply node_value_Clone.
    + by injection Hnew as <-.
  - rewrite Get_from_cons, Hnew2. simpl.
    rewrite (Put_child_children _ _ _ _ _ _ _ Hnew).
    destruct (children_ n !! c) as [x|] eqn:Hx; [|done].
    destruct (private_node_old _ _ _ _ x Hp) as (m&Hm&_&Hmwf).
    { by eapply node_wf_child. }
    rewrite Get_from_cons, Hm. simpl.
    destruct (children_ m !! c2) as [y|] eqn:Hy; [|done].
    assert (y < length h0) by (by eapply node_wf_child).
    rewrite (Get_from_frame h0 h2), (Get_from_frame h0 h); done.
Qed.

(** Every key other than the one written reads as before. *)
Lemma Put_loop_other h0 key T v : ∀ h node n h' k U,
  private_node h0 h node n →
  Put_loop h node key T v = Some h' →
  k ≠ key →
  Get_from h' node k U = Get_from h node k U.
Proof.
  induction key as [|c key IH]; intros h node n h' k U Hp Hrun Hne.
  - simpl in Hrun. by injection Hrun as <-.
  - destruct (Put_loop_unfold _ _ _ _ _ _ _ _ _ Hp Hrun)
      as (new&h2&Hnew&Hp2&Hrun2&Hnode&Hwf'&Hag').
    pose proof Hp as (Hwf0&_&Hag&_&Hn&Hnwf).
    destruct k as [|c' k].
    { unfold Get_from, Get_value. simpl. by rewrite Hnode, Hn. }
    rewrite !Get_from_cons, Hnode, Hn. simpl.
    destruct (decide (c' = c)) as [->|Hc].
    + rewrite lookup_insert_eq.
      assert (k ≠ key) as Hk by congruence.
      rewrite (IH _ _ _ _ _ U Hp2 Hrun2 Hk).
      eapply Put_child_view; [done..|].
      intros Hlast%bool_decide_eq_true. congruence.
    + rewrite lookup_insert_ne by done.
      destruct (children_ n !! c') as [x|] eqn:Hx; [|done].
      assert (x < length h0) by (by eapply node_wf_child).
      rewrite (Get_from_frame h0 h'), (Get_from_frame h0 h); done.
Qed.

(** ** [Trie::Put] *)

Lemma clone_root_spec h t :
  heap_wf h → Trie_valid h t →
  ∃ n, clone_root h t = Some (h ++ [n], length h) ∧
    private_node h (h ++ [n]) (length h) n ∧
    n = match root_ t with
        | Some r => from_option Clone TrieNode_default (h !! r)
        | None => TrieNode_default
        end.
Proof.
  intros Hwf Hv. unfold clone_root, Trie_valid in *.
  assert (∀ n, node_wf (length h) n → private_node h (h ++ [n]) (length h) n) as Hpriv.
  { intros n Hn. split_and!; try done.
    - by apply heap_wf_alloc.
    - intros x Hx. by rewrite lookup_app_l.
    - by rewrite lookup_app_r, Nat.sub_diag by lia. }
  destruct (root_ t) as [r|].
  - destruct (lookup_lt_is_Some_2 h r Hv) as [m Hm]. rewrite Hm. simpl.
    eexists. split_and!; [done| |done].
    apply Hpriv, node_wf_Clone. by eapply heap_wf_lookup.
  - eexists. split_and!; [done| |done]. apply Hpriv, node_wf_default.
Qed.

(** The clone of the root shows what the root showed. *)
Lemma clone_root_view h t n k U :
  heap_wf h → Trie_valid h t →
  clone_root h t = Some (h ++ [n], length h) →
  Get_from (h ++ [n]) (length h) k U = Get h t k U.
Proof.
  intros Hwf Hv Hcl.
  destruct (clone_root_spec h t Hwf Hv) as (n'&Hcl'&Hp&Hn).
  rewrite Hcl in Hcl'. injection Hcl' as Heq%app_inj_tail. destruct Heq as [_ <-].
  pose proof Hp as (_&_&Hag&_&Hnew&_).
  unfold Get, Trie_valid in *. destruct (root_ t) as [r|].
  - destruct (lookup_lt_is_Some_2 h r Hv) as [m Hm]. rewrite Hm in Hn. simpl in Hn.
    pose proof (heap_wf_lookup _ _ _ Hwf Hm) as Hmwf.
    destruct k as [|c k].
    + unfold Get_from, Get_value. simpl. rewrite Hnew, Hm. simpl. subst n.
      by eapply node_value_Clone.
    + rewrite !Get_from_cons, Hnew, Hm. simpl. subst n. rewrite Clone_children.
      destruct (children_ m !! c) as [x|] eqn:Hx; [|done].
      apply Get_from_frame; [done..|]. by eapply node_wf_child.
  - subst n. destruct k as [|c k].
    + unfold Get_from, Get_value. simpl. by rewrite Hnew.
    + by rewrite Get_from_cons, Hnew.
Qed.

Lemma clone_root_walk h t n p :
  heap_wf h → Trie_valid h t →
  clone_root h t = Some (h ++ [n], length h) →
  p ≠ EmptyString →
  Get_loop (h ++ [n]) (length h) p = Trie_node h t p.
Proof.
  intros Hwf Hv Hcl Hne.
  destruct (clone_root_spec h t Hwf Hv) as (n'&Hcl'&Hp&Hn).
  rewrite Hcl in Hcl'. injection Hcl' as Heq%app_inj_tail. destruct Heq as [_ <-].
  pose proof Hp as (_&_&Hag&_&Hnew&_).
  destruct p as [|c p]; [done|]. simpl. rewrite Hnew. simpl.
  unfold Trie_node, Trie_valid in *. destruct (root_ t) as [r|].
  - destruct (lookup_lt_is_Some_2 h r Hv) as [m Hm]. rewrite Hm in Hn. simpl in Hn.
    pose proof (heap_wf_lookup _ _ _ Hwf Hm) as Hmwf.
    simpl. rewrite Hm. simpl. subst n. rewrite Clone_children.
    destruct (children_ m !! c) as [x|] eqn:Hx; [|done].
    apply Get_loop_frame; [done..|]. by eapply node_wf_child.
  - by subst n.
Qed.

(** [Put] always returns: a trie with a newly allocated root, in a heap that
    is well formed again and still holds every old node. *)
Lemma Put_spec h t key T v :
  heap_wf h → Trie_valid h t →
  ∃ h', Put h t key T v = Some (h', {| root_ := Some (length h) |}) ∧
    heap_wf h' ∧ agree_below (length h) h h' ∧ length h < length h'.
Proof.
  intros Hwf Hv. destruct (clone_root_spec h t Hwf Hv) as (n&Hcl&Hp&_).
  destruct (Put_loop_spec h key T v _ _ _ Hp) as (h'&n'&Hrun&Hwf'&Hle&Hfr&_).
  exists h'. unfold Put. rewrite Hcl. simpl. rewrite Hrun. simpl.
  rewrite length_app in Hle. simpl in Hle.
  split_and!; [done|done| |lia].
  intros x Hx. rewrite Hfr by (rewrite ?length_app; simpl; lia).
  by rewrite lookup_app_l.
Qed.

Lemma Put_inv h t key T v h' t' :
  heap_wf h → Trie_valid h t → Put h t key T v = Some (h', t') →
  ∃ n, clone_root h t = Some (h ++ [n], length h) ∧
    private_node h (h ++ [n]) (length h) n ∧
    Put_loop (h ++ [n]) (length h) key T v = Some h' ∧
    t' = {| root_ := Some (length h) |}.
Proof.
  intros Hwf Hv Hput. destruct (clone_root_spec h t Hwf Hv) as (n&Hcl&Hp&_).
  exists n. unfold Put in Hput. rewrite Hcl in Hput. simpl in Hput.
  destruct (Put_loop _ _ key T v) as [h2|]; [|done]. simpl in Hput.
  by injection Hput as <- <-.
Qed.

Lemma Put_valid h t key T v h' t' :
  heap_wf h → Trie_valid h t → Put h t key T v = Some (h', t') →
  heap_wf h' ∧ Trie_valid h' t' ∧ agree_below (length h) h h'.
Proof.
  intros Hwf Hv Hput. destruct (Put_spec h t key T v Hwf Hv) as (h2&Hput2&?&?&?).
  rewrite Hput in Hput2. injection Hput2 as -> ->.
  split_and!; [done| |done]. unfold Trie_valid. simpl. lia.
Qed.

(** Round trip on a key that has at least one character. *)
Lemma Put_Get_same h t key T v h' t' :
  heap_wf h → Trie_valid h t → Put h t key T v = Some (h', t') →
  key ≠ EmptyString →
  Get h' t' key T = Some (Some v) ∧ ∀ U, U ≠ T → Get h' t' key U = None.
Proof.
  intros Hwf Hv Hput Hne.
  destruct (Put_inv _ _ _ _ _ _ _ Hwf Hv Hput) as (n&_&Hp&Hrun&->).
  destruct (Put_loop_terminal _ _ _ _ _ _ _ _ Hp Hrun Hne) as (b&nb&Hb&Hnb&Hv1&Hv2).
  unfold Get, Get_from, Get_value. simpl. rewrite Hb. simpl. rewrite Hnb. simpl.
  unfold node_value. rewrite Hv1, Hv2. split.
  - by rewrite decide_True.
  - intros U HU. by rewrite decide_False.
Qed.

(** Every other key reads as before. *)
Lemma Put_Get_other h t key T v h' t' k U :
  heap_wf h → Trie_valid h t → Put h t key T v = Some (h', t') →
  k ≠ key →
  Get h' t' k U = Get h t k U.
Proof.
  intros Hwf Hv Hput Hne.
  destruct (Put_inv _ _ _ _ _ _ _ Hwf Hv Hput) as (n&Hcl&Hp&Hrun&->).
  unfold Get at 1. simpl.
  rewrite (Put_loop_other _ _ _ _ _ _ _ _ _ U Hp Hrun Hne).
  by apply clone_root_view.
Qed.

(** ** [Trie::Remove] *)

Lemma private_node_alloc h0 h node n new :
  private_node h0 h node n → node_wf (length h0) new →
  private_node h0 (h ++ [new]) (length h) new.
Proof.
  intros Hp Hnew. pose proof (private_node_lt _ _ _ _ Hp) as Hlt.
  destruct Hp as (Hwf0&Hwf&Hag&Hge&Hn&Hnwf).
  split_and!; try done.
  - apply heap_wf_alloc; [done|]. eapply node_wf_mono; [done|lia].
  - intros x Hx. rewrite lookup_app_l by lia. by apply Hag.
  - lia.
  - by rewrite lookup_app_r, Nat.sub_diag by lia.
Qed.

(** At position 0 the recursion answers with the node it was given or with
    one it allocates, never with a null pointer. *)
Lemma Remove_rec_root h node key h' r :
  Remove_rec h node 0 key = Some (h', r) →
  r = Some node ∨ r = Some (length h).
Proof.
  destruct key as [|c key]; simpl.
  - destruct (h !! node) as [n|]; [|done]. simpl.
    destruct (is_value_node_ n); simpl.
    + intros [= <- <-]. right. by rewrite length_insert.
    + intros [= <- <-]. by left.
  - destruct (h !! node) as [n|]; [|done]. simpl.
    destruct (children_ n !! c) as [x|]; [|intros [= <- <-]; by left].
    destruct (h !! x) as [cn|]; [|done]. simpl.
    destruct (Remove_rec _ _ 1 key) as [[h2 new_child]|]; [|done]. simpl.
    destruct (h2 !! node) as [n2|]; [|done]. simpl.
    intros [= <- <-]. by left.
Qed.

(** The recursion always returns on a private node; it writes only to that
    node and to nodes it allocates, and its answer is null, that node, or a
    node it allocated. *)
Lemma Remove_rec_spec h0 key : ∀ h node n pos,
  private_node h0 h node n →
  ∃ h' r, Remove_rec h node pos key = Some (h', r) ∧
    heap_wf h' ∧ length h ≤ length h' ∧
    (∀ x, x < length h → x ≠ node → h' !! x = h !! x) ∧
    (∀ a, r = Some a → (a = node ∨ length h ≤ a) ∧ a < length h').
Proof.
  induction key as [|c key IH]; intros h node n pos Hp;
    pose proof (private_node_lt _ _ _ _ Hp) as Hlt;
    pose proof Hp as (Hwf0&Hwf&Hag&Hge&Hn&Hnwf);
    simpl; rewrite Hn; simpl.
  - destruct (is_value_node_ n); simpl.
    + destruct (bool_decide (pos ≠ 0) && bool_decide (children_ n = ∅)).
      * exists h, None. by split_and!.
      * eexists _, _. split; [done|]. rewrite length_app, length_insert. simpl.
        split_and!.
        -- apply heap_wf_alloc.
           ++ apply heap_wf_insert; [done|]. apply node_wf_set_empty.
              eapply node_wf_mono; [done|lia].
           ++ rewrite length_insert. apply node_wf_plain.
              eapply node_wf_mono; [done|lia].
        -- lia.
        -- intros x Hx Hne. rewrite lookup_app_l by (rewrite length_insert; lia).
           by rewrite list_lookup_insert_ne.
        -- intros a [= <-]. lia.
    + exists h, (Some node). split_and!; try done. intros a [= <-]. lia.
  - destruct (children_ n !! c) as [x|] eqn:Hx.
    2:{ exists h, (Some node). split_and!; try done. intros a [= <-]. lia. }
    destruct (private_node_old _ _ _ _ x Hp) as (cn&Hcn&_&Hcnwf).
    { by eapply node_wf_child. }
    rewrite Hcn. simpl.
    pose proof (private_node_alloc _ _ _ _ (Clone cn) Hp (node_wf_Clone _ _ Hcnwf)) as Hp1.
    destruct (IH _ _ _ (S pos) Hp1) as (h2&new_child&Hrec&Hwf2&Hle2&Hfr2&Hres2).
    rewrite Hrec. simpl. rewrite length_app in Hle2, Hfr2. simpl in Hle2, Hfr2.
    rewrite Hfr2 by lia. rewrite lookup_app_l by lia. rewrite Hn. simpl.
    set (children := match new_child with
                     | Some a => <[c:=a]> (children_ n)
                     | None => delete c (children_ n)
                     end).
    assert (heap_wf (<[node:=set_children n children]> h2)) as Hwf3.
    { apply heap_wf_insert; [done|]. unfold children. destruct new_child as [a|].
      - apply node_wf_set_insert; [eapply node_wf_mono; [done|lia]|].
        by apply Hres2.
      - apply node_wf_set_delete. eapply node_wf_mono; [done|lia]. }
    assert (∀ y, y < length h → y ≠ node →
      <[node:=set_children n children]> h2 !! y = h !! y) as Hfr3.
    { intros y Hy Hne. rewrite list_lookup_insert_ne by done.
      rewrite Hfr2 by lia. by rewrite lookup_app_l. }
    destruct (bool_decide (pos ≠ 0) && bool_decide (children = ∅)
              && negb (is_value_node_ n)).
    + eexists _, None. split; [done|]. rewrite length_insert. split_and!; try done. lia.
    + eexists _, (Some node). split; [done|]. rewrite length_insert.
      split_and!; try done; [lia|]. intros a [= <-]. lia.
Qed.

Lemma Remove_inv h t key h' t' :
  heap_wf h → Trie_valid h t → Remove h t key = Some (h', t') →
  ∃ n r, clone_root h t = Some (h ++ [n], length h) ∧
    private_node h (h ++ [n]) (length h) n ∧
    Remove_rec (h ++ [n]) (length h) 0 key = Some (h', r) ∧
    t' = {| root_ := r |}.
Proof.
  intros Hwf Hv Hrm. destruct (clone_root_spec h t Hwf Hv) as (n&Hcl&Hp&_).
  exists n. unfold Remove in Hrm. rewrite Hcl in Hrm. simpl in Hrm.
  destruct (Remove_rec _ _ 0 key) as [[h2 r]|]; [|done]. simpl in Hrm.
  exists r. by injection Hrm as <- <-.
Qed.

(** [Remove] always returns: a trie with a newly allocated, non-null root,
    in a heap that is well formed again and still holds every old node. *)
Lemma Remove_spec h t key :
  heap_wf h → Trie_valid h t →
  ∃ h' r, Remove h t key = Some (h', {| root_ := Some r |}) ∧
    length h ≤ r ∧ r < length h' ∧
    heap_wf h' ∧ agree_below (length h) h h'.
Proof.
  intros Hwf Hv. destruct (clone_root_spec h t Hwf Hv) as (n&Hcl&Hp&_).
  destruct (Remove_rec_spec h key _ _ _ 0 Hp) as (h'&r&Hrec&Hwf'&Hle&Hfr&Hres).
  rewrite length_app in Hle, Hfr, Hres. simpl in Hle, Hfr, Hres.
  assert (∃ a, r = Some a) as [a ->].
  { destruct (Remove_rec_root _ _ _ _ _ Hrec) as [->| ->]; eauto. }
  destruct (Hres a eq_refl) as [Ha1 Ha2].
  exists h', a. unfold Remove. rewrite Hcl. simpl. rewrite Hrec. simpl.
  split_and!; try done; [lia|].
  intros x Hx. rewrite Hfr by lia. by rewrite lookup_app_l.
Qed.

(** The root of the result is never the root of the trie it came from. *)
Lemma Remove_root_fresh h t key h' t' :
  Remove h t key = Some (h', t') →
  ∃ r, root_ t' = Some r ∧ length h ≤ r.
Proof.
  unfold Remove, clone_root. intros Hrm.
  assert (∀ n, ('(h1, new_root) ← Some (alloc h n);
                '(h2, new_node) ← Remove_rec h1 new_root 0 key;
                Some (h2, {| root_ := new_node |})) = Some (h', t') →
          ∃ r, root_ t' = Some r ∧ length h ≤ r) as Hgen.
  { intros n. simpl.
    destruct (Remove_rec _ _ 0 key) as [[h2 r]|] eqn:Hrec; [|done].
    simpl. intros [= <- <-].
    destruct (Remove_rec_root _ _ _ _ _ Hrec) as [->| ->]; eexists; split; try done.
    rewrite length_app. simpl. lia. }
  destruct (root_ t) as [r0|]; [|by eapply Hgen].
  destruct (h !! r0) as [m|]; [|done]. by eapply Hgen.
Qed.

(** ** Pruning *)

Lemma key_present_Clone b h n key :
  node_wf b n → key_present h n key → key_present h (Clone n) key.
Proof.
  intros [Hv _]. destruct key as [|c key]; simpl.
  - rewrite Hv. unfold Clone. by destruct (value_ n) as [[T v]|].
  - by rewrite Clone_children.
Qed.

Lemma key_present_Get_loop h a n key b nb :
  h !! a = Some n → Get_loop h a key = Some (Some b) → h !! b = Some nb →
  is_value_node_ nb = true → key_present h n key.
Proof.
  revert a n. induction key as [|c key IH]; intros a n Hn; simpl.
  - intros [= <-] Hb Hv. congruence.
  - rewrite Hn. simpl. destruct (children_ n !! c) as [x|] eqn:Hx; [|done].
    intros Hwalk Hb Hv. destruct (h !! x) as [m|] eqn:Hm.
    + exists x, m. split_and!; [done..|]. by eapply IH.
    + destruct key; simpl in Hwalk; [|by rewrite Hm in Hwalk].
      injection Hwalk as <-. congruence.
Qed.

(** A walk that never meets [node] does not see an assignment to it. *)
Lemma Get_loop_insert_avoid h node m : ∀ p a,
  (∀ q b, on_path q p = true → Get_loop h a q = Some (Some b) → b ≠ node) →
  Get_loop (<[node := m]> h) a p = Get_loop h a p.
Proof.
  induction p as [|c p IH]; intros a Hav; [done|].
  assert (a ≠ node) as Hne by (by apply (Hav EmptyString)).
  simpl. rewrite list_lookup_insert_ne by done.
  destruct (h !! a) as [n|] eqn:Hn; [|done]. simpl.
  destruct (children_ n !! c) as [x|] eqn:Hx; [|done].
  apply IH. intros q b Hq Hwalk. apply (Hav (String c q)).
  - simpl. by rewrite bool_decide_eq_true_2.
  - simpl. by rewrite Hn; simpl; rewrite Hx.
Qed.

Lemma on_path_refl p : on_path p p = true.
Proof. induction p as [|c p IH]; [done|]. simpl. by rewrite bool_decide_eq_true_2. Qed.

(** When the key is stored below the node it is given, the recursion leaves
    no droppable node on the key's path: every node it keeps there carries a
    value or has a child (the node of position 0 apart), and the node at the
    end of the key, if it is kept, has lost its value. *)
Lemma Remove_rec_pruned h0 key : ∀ h node n pos h' r a,
  private_node h0 h node n → key_present h0 n key →
  Remove_rec h node pos key = Some (h', r) → r = Some a →
  (∀ q b, Get_loop h' a q = Some (Some b) → b < length h0 ∨ node ≤ b) ∧
  (∀ p b nb, on_path p key = true → (pos = 0 → p ≠ EmptyString) →
     Get_loop h' a p = Some (Some b) → h' !! b = Some nb → node_live nb) ∧
  (∀ b nb, Get_loop h' a key = Some (Some b) → h' !! b = Some nb →
     is_value_node_ nb = false).
Proof.
  induction key as [|c key IH]; intros h node n pos h' r a Hp Hkey Hrm ->;
    pose proof (private_node_lt _ _ _ _ Hp) as Hlt;
    pose proof Hp as (Hwf0&Hwf&Hag&Hge&Hn&Hnwf);
    match type of Hrm with
    | Remove_rec _ _ _ ?k = _ =>
        destruct (Remove_rec_spec h0 k _ _ _ pos Hp) as (h''&r'&Hrm'&Hwf'&Hle'&Hfr'&_)
    end;
    rewrite Hrm in Hrm'; injection Hrm' as <- <-;
    assert (agree_below (length h0) h0 h') as Hag'
      by (intros y Hy; rewrite Hfr' by lia; by apply Hag);
    assert (∀ y q b, y < length h0 → Get_loop h' y q = Some (Some b) →
                     b < length h0) as Hold
      by (intros y q b Hy; rewrite (Get_loop_frame h0 h') by done;
          by apply Get_loop_bound);
    simpl in Hrm, Hkey; rewrite Hn in Hrm; simpl in Hrm.
  - rewrite Hkey in Hrm. simpl in Hrm.
    destruct (bool_decide (pos ≠ 0) && bool_decide (children_ n = ∅)) eqn:Hprune;
      [done|].
    injection Hrm as <- <-. rewrite length_insert.
    assert ((<[node:=set_children n ∅]> h ++ [TrieNode_of (children_ n)])
              !! length h = Some (TrieNode_of (children_ n))) as Hnew.
    { by rewrite lookup_app_r, length_insert, Nat.sub_diag by (rewrite length_insert; lia). }
    split_and!.
    + intros [|c q] b; simpl.
      * intros [= <-]. lia.
      * rewrite Hnew. simpl.
        destruct (children_ n !! c) as [x|] eqn:Hx; [|done].
        intros Hwalk. left. eapply Hold; [|done]. by eapply node_wf_child.
    + intros [|c p] b nb Hon Hpos; [|done]. simpl. intros [= <-].
      rewrite Hnew. intros [= <-]. right. simpl.
      apply andb_false_iff in Hprune as [Hpr|Hpr].
      * apply bool_decide_eq_false in Hpr. destruct pos; [by destruct Hpos|].
        by destruct Hpr.
      * by apply bool_decide_eq_false in Hpr.
    + intros b nb. simpl. intros [= <-]. rewrite Hnew. by intros [= <-].
  - destruct Hkey as (x&m&Hx&Hm&Hkey). rewrite Hx in Hrm.
    assert (x < length h0) as Hxlt by (by eapply node_wf_child).
    rewrite Hag, Hm in Hrm by done. simpl in Hrm.
    pose proof (heap_wf_lookup _ _ _ Hwf0 Hm) as Hmwf.
    pose proof (private_node_alloc _ _ _ _ (Clone m) Hp (node_wf_Clone _ _ Hmwf)) as Hp1.
    destruct (Remove_rec_spec h0 key _ _ _ (S pos) Hp1)
      as (h2&new_child&Hrec&Hwf2&Hle2&Hfr2&Hres2).
    rewrite Hrec in Hrm. simpl in Hrm.
    rewrite length_app in Hle2, Hfr2. simpl in Hle2, Hfr2.
    rewrite Hfr2, lookup_app_l, Hn in Hrm by lia. simpl in Hrm.
    pose proof (λ a2 Ha2, IH _ _ _ _ _ _ a2 Hp1 (key_present_Clone _ _ _ _ Hmwf Hkey)
                            Hrec Ha2) as IH2.
    set (children := match new_child with
                     | Some a => <[c:=a]> (children_ n)
                     | None => delete c (children_ n)
                     end) in Hrm.
    destruct (bool_decide (pos ≠ 0) && bool_decide (children = ∅)
              && negb (is_value_node_ n)) eqn:Hprune; [done|].
    injection Hrm as <- <-.
    assert (<[node:=set_children n children]> h2 !! node
            = Some (set_children n children)) as Hnode.
    { apply list_lookup_insert_eq. lia. }
    assert (∀ a2 q, new_child = Some a2 →
      Get_loop (<[node:=set_children n children]> h2) a2 q = Get_loop h2 a2 q) as Hsame.
    { intros a2 q Ha2. apply Get_loop_insert_avoid. intros q' b _ Hwalk.
      destruct (IH2 a2 Ha2) as [Hbound _].
      destruct (Hbound q' b Hwalk); lia. }
    split_and!.
    + intros [|c' q] b; simpl.
      * intros [= <-]. lia.
      * rewrite Hnode. simpl.
        destruct (decide (c' = c)) as [->|Hc].
        -- unfold children.
           destruct new_child as [a2|]; [|by rewrite lookup_delete_eq].
           rewrite lookup_insert_eq, Hsame by done. intros Hwalk.
           destruct (IH2 a2 eq_refl) as [Hbound _].
           destruct (Hbound q b Hwalk); lia.
        -- assert (children !! c' = children_ n !! c') as ->.
           { unfold children. destruct new_child.
             - by rewrite lookup_insert_ne.
             - by rewrite lookup_delete_ne. }
           destruct (children_ n !! c') as [y|] eqn:Hy; [|done].
           intros Hwalk. left. eapply Hold; [|done].
           exact (node_wf_child _ _ _ _ Hnwf Hy).
    + intros [|c' p] b nb Hon Hpos; simpl.
      * intros [= <-]. rewrite Hnode. intros [= <-].
        destruct pos; [by destruct Hpos|].
        rewrite bool_decide_eq_true_2 in Hprune by done. simpl in Hprune.
        apply andb_false_iff in Hprune as [Hpr|Hpr].
        -- right. by apply bool_decide_eq_false in Hpr.
        -- left. by apply negb_false_iff in Hpr.
      * simpl in Hon. apply andb_prop in Hon as [->%bool_decide_eq_true Hon].
        rewrite Hnode. simpl. unfold children.
        destruct new_child as [a2|]; [|by rewrite lookup_delete_eq].
        rewrite lookup_insert_eq, Hsame by done. intros Hwalk.
        destruct (IH2 a2 eq_refl) as (Hbound&Hlive&_).
        rewrite list_lookup_insert_ne by (destruct (Hbound p b Hwalk); lia).
        intros Hb. by apply (Hlive p b nb).
    + intros b nb. simpl. rewrite Hnode. simpl. unfold children.
      destruct new_child as [a2|]; [|by rewrite lookup_delete_eq].
      rewrite lookup_insert_eq, Hsame by done. intros Hwalk.
      destruct (IH2 a2 eq_refl) as (Hbound&_&Hend).
      rewrite list_lookup_insert_ne by (destruct (Hbound key b Hwalk); lia).
      by apply Hend.
Qed.

(** ** Old snapshots *)

(** A trie reads the same in every later heap. *)
Lemma Get_frame h h' t key T :
  heap_wf h → Trie_valid h t → agree_below (length h) h h' →
  Get h' t key T = Get h t key T.
Proof.
  intros Hwf Hv Hag. unfold Get, Trie_valid in *.
  destruct (root_ t) as [r|]; [|done]. by apply Get_from_frame.
Qed.

(** ** The store *)

Lemma TrieStore_wf_back s :
  TrieStore_wf s →
  ∃ back, last (snapshots_ s) = Some back ∧ Trie_valid (store_heap s) back.
Proof.
  intros (Hwf&Hall&Hne).
  destruct (last (snapshots_ s)) as [back|] eqn:Hlast.
  - exists back. split; [done|].
    apply last_Some in Hlast as [l' Hl'].
    rewrite Hl' in Hall. apply Forall_app in Hall as [_ Hall].
    by inversion Hall.
  - by apply last_None in Hlast.
Qed.

Lemma get_version_append (l : list Trie) t h h' :
  (Z.of_nat (length l) < size_t_modulus)%Z → l ≠ [] →
  get_version {| store_heap := h'; snapshots_ := l ++ [t] |} =
  (get_version {| store_heap := h; snapshots_ := l |} + 1)%Z.
Proof.
  intros Hlt Hne. unfold get_version. simpl. rewrite length_app. simpl.
  assert (0 < length l) by (destruct l; [done|simpl; lia]).
  rewrite !Z.mod_small by (unfold size_t_modulus in *; lia). lia.
Qed.

Lemma Trie_valid_mono h h' t : Trie_valid h t → length h ≤ length h' → Trie_valid h' t.
Proof. unfold Trie_valid. destruct (root_ t); [lia|done]. Qed.

(** The store just constructed is well formed, and [Put] and [Remove] keep a
    store well formed: the hypotheses of the claims below hold in every store
    the operations can produce. *)
Lemma TrieStore_init_wf : TrieStore_wf TrieStore_init.
Proof. split_and!; [constructor|by repeat constructor|done]. Qed.

Lemma TrieStore_Put_wf s key T v s' ver :
  TrieStore_wf s → TrieStore_Put s key T v = Some (s', ver) → TrieStore_wf s'.
Proof.
  intros Hs Hput. destruct (TrieStore_wf_back s Hs) as (back&Hlast&Hv).
  pose proof Hs as (Hwf&Hall&Hne).
  unfold TrieStore_Put in Hput. rewrite Hlast in Hput. simpl in Hput.
  destruct (Put_spec _ _ key T v Hwf Hv) as (h'&Hp&Hwf'&Hag&Hlt).
  rewrite Hp in Hput. simpl in Hput. injection Hput as <- <-.
  split_and!; simpl; [done| |by destruct (snapshots_ s)].
  apply Forall_app. split.
  - eapply Forall_impl; [exact Hall|]. intros t Ht. eapply Trie_valid_mono; [done|lia].
  - by repeat constructor.
Qed.

Lemma TrieStore_Remove_wf s key s' ver :
  TrieStore_wf s → TrieStore_Remove s key = Some (s', ver) → TrieStore_wf s'.
Proof.
  intros Hs Hrm. destruct (TrieStore_wf_back s Hs) as (back&Hlast&Hv).
  pose proof Hs as (Hwf&Hall&Hne).
  unfold TrieStore_Remove in Hrm. rewrite Hlast in Hrm. simpl in Hrm.
  destruct (Remove_spec _ _ key Hwf Hv) as (h'&r&Hr&Hge&Hlt&Hwf'&Hag).
  rewrite Hr in Hrm. simpl in Hrm.
  assert (Forall (Trie_valid h') (snapshots_ s)) as Hall'.
  { eapply Forall_impl; [exact Hall|]. intros t Ht. eapply Trie_valid_mono; [done|lia]. }
  destruct (Trie_eq _ back); injection Hrm as <- <-.
  - by split_and!.
  - split_and!; simpl; [done| |by destruct (snapshots_ s)].
    apply Forall_app. split; [done|]. by repeat constructor.
Qed.

(** ** The claims *)

(** C1, as the code behaves: [Trie::Remove] clones the root before it looks at
    the key, so for every key, stored or not, the trie it returns has a new
    root and is not equal to the trie it came from; [TrieStore::Remove]
    therefore always appends a snapshot and returns the latest version plus
    one. *)
Theorem TrieStore_Remove_always_appends s key :
  TrieStore_wf s →
  ∃ back h' t',
    last (snapshots_ s) = Some back ∧
    Remove (store_heap s) back key = Some (h', t') ∧
    Trie_eq t' back = false ∧
    TrieStore_Remove s key =
      Some ({| store_heap := h'; snapshots_ := snapshots_ s ++ [t'] |},
            get_version {| store_heap := h'; snapshots_ := snapshots_ s ++ [t'] |}) ∧
    ((Z.of_nat (length (snapshots_ s)) < size_t_modulus)%Z →
     get_version {| store_heap := h'; snapshots_ := snapshots_ s ++ [t'] |} =
     (get_version s + 1)%Z).
Proof.
  intros Hs. destruct (TrieStore_wf_back s Hs) as (back&Hlast&Hv).
  pose proof Hs as (Hwf&_&Hne).
  destruct (Remove_spec _ _ key Hwf Hv) as (h'&r&Hrm&Hge&_).
  assert (Trie_eq {| root_ := Some r |} back = false) as Hneq.
  { apply bool_decide_eq_false. unfold Trie_valid in Hv. simpl.
    destruct (root_ back) as [r0|]; [|done]. intros [= ->]. lia. }
  exists back, h', {| root_ := Some r |}. split_and!; try done.
  - unfold TrieStore_Remove. rewrite Hlast. simpl. rewrite Hrm. simpl.
    by rewrite Hneq.
  - intros Hlt. destruct s as [h l]. by apply get_version_append.
Qed.

(** C2, as the code behaves: after [Put<T>(key, v)] on a key with at least
    one character, [Get<U>(key)] for a type [U] other than [T] does not return
    [nullptr]: it dereferences the null result of the failed cast. *)
Theorem Get_type_mismatch_dereferences_null h t key T v U :
  heap_wf h → Trie_valid h t → key ≠ EmptyString → U ≠ T →
  ∃ h' t', Put h t key T v = Some (h', t') ∧
    Get h' t' key U = None ∧ Get h' t' key U ≠ Some None.
Proof.
  intros Hwf Hv Hne HU. destruct (Put_spec h t key T v Hwf Hv) as (h'&Hput&_).
  eexists _, _. split; [done|].
  destruct (Put_Get_same _ _ _ _ _ _ _ Hwf Hv Hput Hne) as [_ Hmis].
  by rewrite Hmis.
Qed.

(** C3, as the code behaves: for the empty key the loop of [Put] never runs,
    so the value is not stored; on the empty trie [Put("", v)] followed by
    [Get<T>("")] returns [nullptr]. *)
Theorem Put_empty_key_stores_nothing T v :
  ∃ h' t', Put [] Trie_default EmptyString T v = Some (h', t') ∧
    Get h' t' EmptyString T = Some None.
Proof. eexists _, _. split; reflexivity. Qed.

(** C4, amended: for every version other than [SIZE_MAX] that is greater than
    or equal to the number of snapshots, [TrieStore::Get] returns
    [std::nullopt]. *)
Theorem TrieStore_Get_out_of_range s key T version :
  version ≠ SIZE_MAX →
  (Z.of_nat (length (snapshots_ s)) ≤ version)%Z →
  TrieStore_Get s key T version = Some None.
Proof.
  intros Hne Hge. unfold TrieStore_Get.
  rewrite (bool_decide_eq_false_2 (version = SIZE_MAX)) by done.
  by rewrite bool_decide_eq_true_2.
Qed.

(** C5: [Put(key, v)] leaves the result of [Get] on every other key as it
    was; and after [Put("ab", v1)] and [Put("a", v2)], [Get("ab")] is [v1]
    and [Get("a")] is [v2]. *)
Theorem Put_prefix_independence h t T1 v1 T2 v2 :
  heap_wf h → Trie_valid h t →
  (∀ key T v k U, k ≠ key →
     ∃ h' t', Put h t key T v = Some (h', t') ∧ Get h' t' k U = Get h t k U) ∧
  ∃ h1 t1 h2 t2,
    Put h t "ab" T1 v1 = Some (h1, t1) ∧
    Put h1 t1 "a" T2 v2 = Some (h2, t2) ∧
    Get h2 t2 "ab" T1 = Some (Some v1) ∧
    Get h2 t2 "a" T2 = Some (Some v2).
Proof.
  intros Hwf Hv. split.
  - intros key T v k U Hne. destruct (Put_spec h t key T v Hwf Hv) as (h'&Hput&_).
    eexists _, _. split; [done|]. by eapply Put_Get_other.
  - destruct (Put_spec h t "ab" T1 v1 Hwf Hv) as (h1&Hput1&_).
    destruct (Put_valid _ _ _ _ _ _ _ Hwf Hv Hput1) as (Hwf1&Hv1&_).
    destruct (Put_spec h1 _ "a" T2 v2 Hwf1 Hv1) as (h2&Hput2&_).
    eexists _, _, _, _. split_and!; [done|done|..].
    + rewrite (Put_Get_other _ _ _ _ _ _ _ "ab" T1 Hwf1 Hv1 Hput2) by done.
      by apply (Put_Get_same _ _ _ _ _ _ _ Hwf Hv Hput1).
    + by apply (Put_Get_same _ _ _ _ _ _ _ Hwf1 Hv1 Hput2).
Qed.

(** C6: from a fresh store, [Put("x", v1)] returns version 1; then
    [Get("x", 0)] is absent and [Get("x", 1)] yields [v1]; a second
    [Put("x", v2)] returns version 2, after which [Get("x", 1)] still yields
    [v1] and [Get("x", 2)] yields [v2].  (For [v1], [v2] the values 1 and 2
    of the claim.) *)
Theorem TrieStore_versioning_scenario T v1 v2 :
  get_version TrieStore_init = 0%Z ∧
  snapshots_ TrieStore_init = [Trie_default] ∧
  ∃ s1 s2 t1 t2,
    TrieStore_Put TrieStore_init "x" T v1 = Some (s1, 1%Z) ∧
    TrieStore_Get s1 "x" T 0 = Some None ∧
    TrieStore_Get s1 "x" T 1 = Some (Some {| guard_root_ := t1; guard_value_ := v1 |}) ∧
    TrieStore_Put s1 "x" T v2 = Some (s2, 2%Z) ∧
    TrieStore_Get s2 "x" T 1 = Some (Some {| guard_root_ := t1; guard_value_ := v1 |}) ∧
    TrieStore_Get s2 "x" T 2 = Some (Some {| guard_root_ := t2; guard_value_ := v2 |}) ∧
    snapshots_ s2 = [Trie_default; t1; t2].
Proof.
  split; [reflexivity|]. split; [reflexivity|].
  eexists _, _, _, _.
  split; [vm_compute; reflexivity|].
  split; [vm_compute; reflexivity|].
  split; [vm_compute; case_cast|].
  split; [vm_compute; reflexivity|].
  split; [vm_compute; case_cast|].
  split; [vm_compute; case_cast|].
  reflexivity.
Qed.

(** C7: after [Put(key, v)] every old node is unchanged; every path that is
    not an initial part of [key] leads to the very node it led to in the old
    trie (or to none, as before); and every initial part of [key], the empty
    one included, leads to a node that did not exist in the old heap. *)
Theorem Put_structural_sharing h t key T v :
  heap_wf h → Trie_valid h t →
  ∃ h' t', Put h t key T v = Some (h', t') ∧
    agree_below (length h) h h' ∧
    (∀ p, on_path p key = false → Trie_node h' t' p = Trie_node h t p) ∧
    (∀ p, on_path p key = true →
       ∃ a, Trie_node h' t' p = Some (Some a) ∧ h !! a = None ∧ is_Some (h' !! a)).
Proof.
  intros Hwf Hv. destruct (Put_spec h t key T v Hwf Hv) as (h'&Hput&Hwf'&Hag&_).
  destruct (Put_inv _ _ _ _ _ _ _ Hwf Hv Hput) as (n&Hcl&Hp&Hrun&_).
  eexists _, _. split_and!; [done|done|..].
  - intros p Hon. unfold Trie_node at 1. simpl.
    rewrite (Put_loop_shared _ _ _ _ _ _ _ _ _ Hp Hrun Hon).
    apply clone_root_walk; try done. intros ->. by destruct key.
  - intros p Hon.
    destruct (Put_loop_fresh _ _ _ _ _ _ _ _ _ Hp Hrun Hon) as (a&Ha&Hge).
    exists a. split_and!; [done|by apply lookup_ge_None|].
    apply lookup_lt_is_Some. eapply Get_loop_bound; [done| |done].
    pose proof (private_node_lt _ _ _ _ Hp) as Hlt.
    destruct (Put_loop_spec h key T v _ _ _ Hp) as (h''&_&Hrun'&_&Hle&_).
    rewrite Hrun in Hrun'. injection Hrun' as <-. lia.
Qed.

(** C8, amended: after [Put("ab", v)] and [Remove("ab")], a node that path
    "a" still leads to carries a value, or has a child other than 'b', or
    keeps the child 'b' because "ab" has descendants of its own: the node at
    "ab" is then kept without a value and with its children.  In every case
    a node that is left at "a" or at "ab" carries a value or has a child:
    [Remove] has dropped every node of the key's path below the root that
    was left with neither.  From the empty trie, no node is left at path
    "a". *)
Theorem Remove_prunes_path h t T v :
  heap_wf h → Trie_valid h t →
  (∃ h1 t1 h2 t2,
    Put h t "ab" T v = Some (h1, t1) ∧
    Remove h1 t1 "ab" = Some (h2, t2) ∧
    (∀ a n, Trie_node h2 t2 "a" = Some (Some a) → h2 !! a = Some n →
       is_value_node_ n = true ∨
       (∃ c x, c ≠ "b"%char ∧ children_ n !! c = Some x) ∨
       (∃ x m, children_ n !! "b"%char = Some x ∧
          Trie_node h2 t2 "ab" = Some (Some x) ∧ h2 !! x = Some m ∧
          is_value_node_ m = false ∧ children_ m ≠ ∅)) ∧
    (∀ p a n, p = "a" ∨ p = "ab" →
       Trie_node h2 t2 p = Some (Some a) → h2 !! a = Some n → node_live n) ∧
    (∀ a n, Trie_node h2 t2 "ab" = Some (Some a) → h2 !! a = Some n →
       is_value_node_ n = false ∧ children_ n ≠ ∅)) ∧
  (∃ h1 t1 h2 t2,
    Put [] Trie_default "ab" T v = Some (h1, t1) ∧
    Trie_node h1 t1 "a" = Some (Some 1) ∧
    Remove h1 t1 "ab" = Some (h2, t2) ∧
    Trie_node h2 t2 "a" = Some None).
Proof.
  intros Hwf Hv. split.
  - destruct (Put_spec h t "ab" T v Hwf Hv) as (h1&Hput&_).
    destruct (Put_valid _ _ _ _ _ _ _ Hwf Hv Hput) as (Hwf1&Hv1&_).
    destruct (Remove_spec h1 _ "ab" Hwf1 Hv1) as (h2&r&Hrm&_&_&Hwf2&_).
    destruct (Put_inv _ _ _ _ _ _ _ Hwf Hv Hput) as (n0&_&Hp0&Hrun&_).
    destruct (Put_loop_terminal _ _ _ _ _ _ _ _ Hp0 Hrun) as (b&nb&Hb&Hnb&Hval&_);
      [done|].
    destruct (Remove_inv _ _ _ _ _ Hwf1 Hv1 Hrm) as (n1&r'&Hcl&Hp1&Hrec&[= <-]).
    destruct (clone_root_spec h1 _ Hwf1 Hv1) as (n1'&Hcl'&_&Hn1).
    rewrite Hcl in Hcl'. injection Hcl' as Heq%app_inj_tail. destruct Heq as [_ <-].
    simpl in Hn1, Hv1. unfold Trie_valid in Hv1. simpl in Hv1.
    destruct (lookup_lt_is_Some_2 h1 _ Hv1) as [m Hm].
    rewrite Hm in Hn1. simpl in Hn1.
    assert (key_present h1 n1 "ab") as Hkey.
    { subst n1. eapply key_present_Clone; [exact (heap_wf_lookup _ _ _ Hwf1 Hm)|].
      by eapply key_present_Get_loop. }
    destruct (Remove_rec_pruned _ _ _ _ _ _ _ _ _ Hp1 Hkey Hrec eq_refl)
      as (_&Hlive&Hend).
    assert (∀ p a n, p = "a" ∨ p = "ab" →
      Trie_node h2 {| root_ := Some r |} p = Some (Some a) → h2 !! a = Some n →
      node_live n) as Hall.
    { intros p a n Hpath Hwalk Ha.
      apply (Hlive p a n); [by destruct Hpath as [-> | ->]| |done|done].
      intros _. by destruct Hpath as [-> | ->]. }
    assert (∀ a n, Trie_node h2 {| root_ := Some r |} "ab" = Some (Some a) →
      h2 !! a = Some n → is_value_node_ n = false ∧ children_ n ≠ ∅) as Hab.
    { intros a n Hwalk Ha. pose proof (Hend a n Hwalk Ha) as Hnv. split; [done|].
      destruct (Hall "ab" a n (or_intror eq_refl) Hwalk Ha) as [Hl|Hl];
        [congruence|done]. }
    eexists _, _, _, _. split_and!; [done|done| |done|done].
    intros a n Hwalk Ha.
    destruct (Hall "a" a n (or_introl eq_refl) Hwalk Ha) as [Hl|Hl]; [by left|].
    right. apply map_choose in Hl as (c&x&Hcx).
    destruct (decide (c = "b"%char)) as [->|Hc]; [right|left; by exists c, x].
    assert (x < length h2) as Hx.
    { eapply node_wf_child; [|done]. exact (heap_wf_lookup _ _ _ Hwf2 Ha). }
    destruct (lookup_lt_is_Some_2 h2 x Hx) as [mx Hmx].
    assert (Trie_node h2 {| root_ := Some r |} "ab" = Some (Some x)) as Hwalk2.
    { unfold Trie_node in *. cbn [root_ Get_loop] in *.
      destruct (h2 !! r) as [nr|]; [|done]. cbn [mbind option_bind] in *.
      destruct (children_ nr !! "a"%char) as [y|]; [|done].
      injection Hwalk as ->. rewrite Ha. cbn [mbind option_bind].
      by rewrite Hcx. }
    exists x, mx. split_and!; [done|done|done|..]; by apply (Hab x mx).
  - eexists _, _, _, _. split_and!; vm_compute; reflexivity.
Qed.

(** C10: [Remove] always returns a trie whose root is an allocated node,
    never the null root of a default-constructed trie; when the only key is
    removed the root that is left is a node with no child and no value. *)
Theorem Remove_root_never_null h t key :
  heap_wf h → Trie_valid h t →
  (∃ h' r n,
    Remove h t key = Some (h', {| root_ := Some r |}) ∧
    h' !! r = Some n ∧
    Trie_eq {| root_ := Some r |} Trie_default = false) ∧
  (∀ T v, ∃ h1 t1 h2 r,
    Put [] Trie_default "ab" T v = Some (h1, t1) ∧
    Remove h1 t1 "ab" = Some (h2, {| root_ := Some r |}) ∧
    h2 !! r = Some TrieNode_default).
Proof.
  intros Hwf Hv. split.
  - destruct (Remove_spec h t key Hwf Hv) as (h'&r&Hrm&_&Hlt&_).
    destruct (lookup_lt_is_Some_2 h' r Hlt) as [n Hn].
    by exists h', r, n.
  - intros T v. eexists _, _, _, _. split_and!; vm_compute; reflexivity.
Qed.

(** * Further properties of the code *)

(** ** Views from a node *)

Lemma node_view_lookup h a n k U :
  h !! a = Some n → Get_from h a k U = node_view h n k U.
Proof.
  intros Hn. destruct k as [|c k].
  - unfold Get_from, Get_value. simpl. by rewrite Hn.
  - rewrite Get_from_cons, Hn. done.
Qed.

Lemma node_walk_lookup h a n p :
  h !! a = Some n → p ≠ EmptyString → Get_loop h a p = node_walk h n p.
Proof. intros Hn Hne. destruct p as [|c p]; [done|]. simpl. by rewrite Hn. Qed.

Lemma node_view_frame h0 h n k U :
  heap_wf h0 → agree_below (length h0) h0 h → node_wf (length h0) n →
  node_view h n k U = node_view h0 n k U.
Proof.
  intros Hwf Hag Hn. destruct k as [|c k]; [done|]. simpl.
  destruct (children_ n !! c) as [x|] eqn:Hx; [|done].
  apply Get_from_frame; [done..|]. by eapply node_wf_child.
Qed.

Lemma node_walk_frame h0 h n p :
  heap_wf h0 → agree_below (length h0) h0 h → node_wf (length h0) n →
  node_walk h n p = node_walk h0 n p.
Proof.
  intros Hwf Hag Hn. destruct p as [|c p]; [done|]. simpl.
  destruct (children_ n !! c) as [x|] eqn:Hx; [|done].
  apply Get_loop_frame; [done..|]. by eapply node_wf_child.
Qed.

Lemma node_view_Clone b h n k U :
  node_wf b n → node_view h (Clone n) k U = node_view h n k U.
Proof.
  intros Hn. destruct k as [|c k]; simpl.
  - by eapply node_value_Clone.
  - by rewrite Clone_children.
Qed.

Lemma node_walk_Clone h n p : node_walk h (Clone n) p = node_walk h n p.
Proof. destruct p as [|c p]; [done|]. simpl. by rewrite Clone_children. Qed.

Lemma private_node_view h0 h node n k U :
  private_node h0 h node n → Get_from h node k U = node_view h0 n k U.
Proof.
  intros (Hwf0&_&Hag&_&Hn&Hnwf).
  rewrite (node_view_lookup _ _ _ _ _ Hn). by apply node_view_frame.
Qed.

Lemma private_node_walk h0 h node n p :
  private_node h0 h node n → p ≠ EmptyString →
  Get_loop h node p = node_walk h0 n p.
Proof.
  intros (Hwf0&_&Hag&_&Hn&Hnwf) Hne.
  rewrite (node_walk_lookup _ _ _ _ Hn Hne). by apply node_walk_frame.
Qed.

Lemma private_node_reach h0 h node n q b :
  private_node h0 h node n → Get_loop h node q = Some (Some b) →
  b < length h0 ∨ node ≤ b.
Proof.
  intros Hp Hwalk. destruct q as [|c q].
  - injection Hwalk as <-. by right.
  - rewrite (private_node_walk _ _ _ _ _ Hp) in Hwalk by done.
    pose proof Hp as (Hwf0&_&_&_&_&Hnwf). simpl in Hwalk.
    destruct (children_ n !! c) as [x|] eqn:Hx; [|done].
    left. eapply Get_loop_bound; [done| |done]. by eapply node_wf_child.
Qed.

Lemma Get_from_insert_avoid h node m a k U :
  (∀ q b, Get_loop h a q = Some (Some b) → b ≠ node) →
  Get_from (<[node := m]> h) a k U = Get_from h a k U.
Proof.
  intros Hav. unfold Get_from.
  rewrite Get_loop_insert_avoid by (intros q b _; apply Hav).
  destruct (Get_loop h a k) as [[b|]|] eqn:Hb; try done. simpl.
  unfold Get_value. rewrite list_lookup_insert_ne; [done|].
  intros <-. by apply (Hav k node).
Qed.

(** ** What the recursion of [Remove] does to the keys *)

(** The recursion on a private node: its answer reaches only old nodes and
    nodes made since; the key itself is no longer found; every other key is
    found as before; every path off the key leads where it led before.  A
    null answer stands for a subtree that is gone. *)
Lemma Remove_rec_effect h0 key : ∀ h node n pos h' r,
  private_node h0 h node n →
  Remove_rec h node pos key = Some (h', r) →
  (∀ a, r = Some a → ∀ q b, Get_loop h' a q = Some (Some b) →
     b < length h0 ∨ node ≤ b) ∧
  (∀ U, from_option (λ a, Get_from h' a key U) (Some None) r = Some None) ∧
  (∀ k U, k ≠ key →
     from_option (λ a, Get_from h' a k U) (Some None) r = node_view h0 n k U) ∧
  (∀ p, on_path p key = false →
     from_option (λ a, Get_loop h' a p) (Some None) r = node_walk h0 n p).
Proof.
  induction key as [|c key IH]; intros h node n pos h' r Hp Hrm;
    pose proof (private_node_lt _ _ _ _ Hp) as Hlt;
    pose proof Hp as (Hwf0&Hwf&Hag&Hge&Hn&Hnwf);
    match type of Hrm with
    | Remove_rec _ _ _ ?k = _ =>
        destruct (Remove_rec_spec h0 k _ _ _ pos Hp) as (h''&r'&Hrm'&Hwf'&Hle'&Hfr'&_)
    end;
    rewrite Hrm in Hrm'; injection Hrm' as <- <-;
    assert (agree_below (length h0) h0 h') as Hag'
      by (intros y Hy; rewrite Hfr' by lia; by apply Hag);
    simpl in Hrm; rewrite Hn in Hrm; simpl in Hrm.
  - destruct (is_value_node_ n) eqn:Hval; simpl in Hrm.
    + destruct (bool_decide (pos ≠ 0) && bool_decide (children_ n = ∅)) eqn:Hprune.
      * injection Hrm as <- <-.
        apply andb_prop in Hprune as [_ Hempty%bool_decide_eq_true].
        split_and!; [done|done|..].
        -- intros [|c k] U Hne; [done|]. simpl. by rewrite Hempty, lookup_empty.
        -- intros [|c p] Hon; [done|]. simpl. by rewrite Hempty, lookup_empty.
      * injection Hrm as <- <-. rewrite length_insert.
        assert ((<[node:=set_children n ∅]> h ++ [TrieNode_of (children_ n)])
                  !! length h = Some (TrieNode_of (children_ n))) as Hnew.
        { by rewrite lookup_app_r, length_insert, Nat.sub_diag
            by (rewrite length_insert; lia). }
        split_and!.
        -- intros a [= <-] [|c q] b; simpl.
           ++ intros [= <-]. lia.
           ++ rewrite Hnew. simpl.
              destruct (children_ n !! c) as [x|] eqn:Hx; [|done].
              rewrite (Get_loop_frame h0) by (try done; by eapply node_wf_child).
              intros Hwalk. left. eapply Get_loop_bound; [done| |done].
              by eapply node_wf_child.
        -- intros U. simpl. by rewrite (node_view_lookup _ _ _ _ _ Hnew).
        -- intros k U Hne. simpl. rewrite (node_view_lookup _ _ _ _ _ Hnew).
           rewrite (node_view_frame h0) by (try done; by apply node_wf_plain).
           by destruct k.
        -- intros p Hon. simpl. destruct p as [|c p]; [done|].
           rewrite (node_walk_lookup _ _ _ _ Hnew) by done.
           by rewrite (node_walk_frame h0) by (try done; by apply node_wf_plain).
    + injection Hrm as <- <-. split_and!.
      * intros a [= <-] q b. by apply (private_node_reach h0 h node n).
      * intros U. simpl. rewrite (private_node_view _ _ _ _ _ _ Hp). simpl.
        unfold node_value. by rewrite Hval.
      * intros k U _. simpl. by apply private_node_view.
      * intros p Hon. simpl. apply private_node_walk; [done|]. by intros ->.
  - destruct (children_ n !! c) as [x|] eqn:Hx.
    2:{ injection Hrm as <- <-. split_and!.
        - intros a [= <-] q b. by apply (private_node_reach h0 h node n).
        - intros U. simpl. rewrite (private_node_view _ _ _ _ _ _ Hp). simpl.
          by rewrite Hx.
        - intros k U _. simpl. by apply private_node_view.
        - intros p Hon. simpl. apply private_node_walk; [done|]. by intros ->. }
    assert (x < length h0) as Hxlt by (by eapply node_wf_child).
    destruct (private_node_old _ _ _ _ x Hp Hxlt) as (m&Hm&Hm0&Hmwf).
    rewrite Hm in Hrm. simpl in Hrm.
    pose proof (private_node_alloc _ _ _ _ (Clone m) Hp (node_wf_Clone _ _ Hmwf)) as Hp1.
    destruct (Remove_rec_spec h0 key _ _ _ (S pos) Hp1)
      as (h2&new_child&Hrec&Hwf2&Hle2&Hfr2&Hres2).
    rewrite Hrec in Hrm. simpl in Hrm.
    rewrite length_app in Hle2, Hfr2. simpl in Hle2, Hfr2.
    rewrite Hfr2, lookup_app_l, Hn in Hrm by lia. simpl in Hrm.
    destruct (IH _ _ _ _ _ _ Hp1 Hrec) as (IHreach&IHsame&IHother&IHwalk).
    assert (∀ k U, node_view h0 (Clone m) k U = Get_from h0 x k U) as Hcv.
    { intros k U. rewrite (node_view_Clone _ _ _ _ _ Hmwf).
      by rewrite (node_view_lookup _ _ _ _ _ Hm0). }
    assert (∀ p, p ≠ EmptyString → node_walk h0 (Clone m) p = Get_loop h0 x p) as Hcw.
    { intros p Hne. rewrite node_walk_Clone.
      by rewrite (node_walk_lookup _ _ _ _ Hm0 Hne). }
    set (children := match new_child with
                     | Some a => <[c:=a]> (children_ n)
                     | None => delete c (children_ n)
                     end) in Hrm.
    assert (∀ c', c' ≠ c → children !! c' = children_ n !! c') as Hch.
    { intros c' Hc. unfold children. destruct new_child.
      - by rewrite lookup_insert_ne.
      - by rewrite lookup_delete_ne. }
    destruct (bool_decide (pos ≠ 0) && bool_decide (children = ∅)
              && negb (is_value_node_ n)) eqn:Hprune.
    + injection Hrm as <- <-.
      apply andb_prop in Hprune as [Hprune Hval%negb_true_iff].
      apply andb_prop in Hprune as [_ Hempty%bool_decide_eq_true].
      assert (new_child = None) as Hnone.
      { unfold children in Hempty. destruct new_child as [a2|]; [|done].
        by apply insert_non_empty in Hempty. }
      split_and!; [done|done|..].
      * intros [|c' k] U Hne; simpl.
        -- unfold node_value. by rewrite Hval.
        -- destruct (decide (c' = c)) as [->|Hc].
           ++ rewrite Hx, <- Hcv, <- IHother by congruence. by rewrite Hnone.
           ++ by rewrite <- Hch, Hempty, lookup_empty.
      * intros [|c' p] Hon; [done|]. simpl.
        destruct (decide (c' = c)) as [->|Hc].
        -- simpl in Hon. rewrite bool_decide_eq_true_2 in Hon by done.
           simpl in Hon. rewrite Hx, <- Hcw by (intros ->; by destruct key).
           rewrite <- IHwalk by done. by rewrite Hnone.
        -- by rewrite <- Hch, Hempty, lookup_empty.
    + injection Hrm as <- <-.
      assert (<[node:=set_children n children]> h2 !! node
              = Some (set_children n children)) as Hnode.
      { apply list_lookup_insert_eq. lia. }
      assert (∀ a2 q b, new_child = Some a2 →
        Get_loop h2 a2 q = Some (Some b) → b ≠ node) as Hav.
      { intros a2 q b Ha2 Hwalk. destruct (IHreach a2 Ha2 q b Hwalk); lia. }
      split_and!.
      * intros a [= <-] [|c' q] b; simpl.
        -- intros [= <-]. lia.
        -- rewrite Hnode. simpl.
           destruct (decide (c' = c)) as [->|Hc].
           ++ unfold children.
              destruct new_child as [a2|]; [|by rewrite lookup_delete_eq].
              rewrite lookup_insert_eq.
              rewrite Get_loop_insert_avoid by (intros q' b' _; by apply Hav).
              intros Hwalk. destruct (IHreach a2 eq_refl q b Hwalk); lia.
           ++ rewrite Hch by done.
              destruct (children_ n !! c') as [y|] eqn:Hy; [|done].
              assert (y < length h0) by exact (node_wf_child _ _ _ _ Hnwf Hy).
              rewrite (Get_loop_frame h0) by done.
              intros Hwalk. left. by eapply Get_loop_bound.
      * intros U. simpl. rewrite (node_view_lookup _ _ _ _ _ Hnode). simpl.
        unfold children.
        destruct new_child as [a2|]; [|by rewrite lookup_delete_eq].
        rewrite lookup_insert_eq.
        rewrite Get_from_insert_avoid by (intros q' b'; by apply Hav).
        apply (IHsame U).
      * intros [|c' k] U Hne; simpl; rewrite (node_view_lookup _ _ _ _ _ Hnode);
          [done|]. simpl.
        destruct (decide (c' = c)) as [->|Hc].
        -- rewrite Hx, <- Hcv, <- IHother by congruence. unfold children.
           destruct new_child as [a2|]; [|by rewrite lookup_delete_eq].
           rewrite lookup_insert_eq. simpl.
           apply Get_from_insert_avoid. intros q' b'; by apply Hav.
        -- rewrite Hch by done.
           destruct (children_ n !! c') as [y|] eqn:Hy; [|done].
           apply Get_from_frame; [done..|]. exact (node_wf_child _ _ _ _ Hnwf Hy).
      * intros [|c' p] Hon; [done|]. simpl. rewrite Hnode. simpl.
        destruct (decide (c' = c)) as [->|Hc].
        -- simpl in Hon. rewrite bool_decide_eq_true_2 in Hon by done.
           simpl in Hon. rewrite Hx, <- Hcw by (intros ->; by destruct key).
           rewrite <- IHwalk by done. unfold children.
           destruct new_child as [a2|]; [|by rewrite lookup_delete_eq].
           rewrite lookup_insert_eq. simpl.
           apply Get_loop_insert_avoid. intros q' b' _; by apply Hav.
        -- rewrite Hch by done.
           destruct (children_ n !! c') as [y|] eqn:Hy; [|done].
           apply Get_loop_frame; [done..|]. exact (node_wf_child _ _ _ _ Hnwf Hy).
Qed.

(** ** Reading, writing and removing keys *)

Lemma clone_root_node_view h t n k U :
  heap_wf h → Trie_valid h t →
  clone_root h t = Some (h ++ [n], length h) →
  node_view h n k U = Get h t k U.
Proof.
  intros Hwf Hv Hcl. rewrite <- (clone_root_view h t n k U Hwf Hv Hcl).
  destruct (clone_root_spec h t Hwf Hv) as (n'&Hcl'&Hp&_).
  rewrite Hcl in Hcl'. injection Hcl' as Heq%app_inj_tail. destruct Heq as [_ <-].
  symmetry. by apply private_node_view.
Qed.

Lemma clone_root_node_walk h t n p :
  heap_wf h → Trie_valid h t →
  clone_root h t = Some (h ++ [n], length h) →
  p ≠ EmptyString →
  node_walk h n p = Trie_node h t p.
Proof.
  intros Hwf Hv Hcl Hne. rewrite <- (clone_root_walk h t n p Hwf Hv Hcl Hne).
  destruct (clone_root_spec h t Hwf Hv) as (n'&Hcl'&Hp&_).
  rewrite Hcl in Hcl'. injection Hcl' as Heq%app_inj_tail. destruct Heq as [_ <-].
  symmetry. by apply private_node_walk.
Qed.

Lemma Get_loop_defined h : heap_wf h → ∀ p a, a < length h → is_Some (Get_loop h a p).
Proof.
  intros Hwf. induction p as [|c p IH]; intros a Ha; simpl; [done|].
  destruct (lookup_lt_is_Some_2 h a Ha) as [n Hn]. rewrite Hn. simpl.
  destruct (children_ n !! c) as [x|] eqn:Hx; [|done].
  apply IH. eapply node_wf_child; [|done]. by eapply heap_wf_lookup.
Qed.

(** A key that [Get] does not find for one type it finds for no type. *)
Lemma Get_absent_any_type h t key T U :
  Get h t key T = Some None → Get h t key U = Some None.
Proof.
  unfold Get, Get_from, Get_value, node_value.
  destruct (root_ t) as [r|]; [|done].
  destruct (Get_loop h r key) as [[b|]|]; simpl; [|done..].
  destruct (h !! b) as [n|]; simpl; [|done].
  destruct (is_value_node_ n); [|done].
  destruct (value_ n) as [[T' v]|]; [|done]. by case_decide.
Qed.


(** X1.  [Get] on a well-formed trie is defined unless the key's node holds a
    value of another type: that is the only way it reaches the unchecked
    dereference. *)
Theorem Get_undefined_only_on_type_mismatch h t key T :
  heap_wf h → Trie_valid h t →
  (Get h t key T = None ↔
   ∃ a n T' v, Trie_node h t key = Some (Some a) ∧ h !! a = Some n ∧
     value_ n = Some (T', v) ∧ T' ≠ T).
Proof.
  intros Hwf Hv. unfold Get, Trie_node, Trie_valid in *.
  destruct (root_ t) as [r|].
  2:{ split; [done|]. by intros (a&n&T'&v&?&_). }
  unfold Get_from, Get_value, node_value.
  destruct (Get_loop_defined h Hwf key r Hv) as [[b|] Hb]; rewrite Hb; simpl.
  2:{ split; [done|]. by intros (a&n&T'&v&?&_). }
  assert (b < length h) as Hlt by (by eapply Get_loop_bound).
  destruct (lookup_lt_is_Some_2 h b Hlt) as [n Hn]. rewrite Hn. simpl.
  destruct (heap_wf_lookup _ _ _ Hwf Hn) as [Hflag _]. rewrite Hflag.
  destruct (value_ n) as [[T' v]|] eqn:Hval; simpl.
  - case_decide as HT.
    + split; [done|]. intros (a&n'&T''&v'&[= <-]&Hn'&Hv'&Hne).
      rewrite Hn in Hn'. injection Hn' as <-. congruence.
    + split; [|done]. intros _. by exists b, n, T', v.
  - split; [done|]. intros (a&n'&T''&v'&[= <-]&Hn'&Hv'&_).
    rewrite Hn in Hn'. injection Hn' as <-. congruence.
Qed.

(** X2.  Round trip on a key of at least one character: [Get<T>] after
    [Put<T>(key, v)] returns [v], whatever the key held before. *)
Theorem Put_Get_round_trip h t key T v :
  heap_wf h → Trie_valid h t → key ≠ EmptyString →
  ∃ h' t', Put h t key T v = Some (h', t') ∧ Get h' t' key T = Some (Some v).
Proof.
  intros Hwf Hv Hne. destruct (Put_spec h t key T v Hwf Hv) as (h'&Hput&_).
  eexists _, _. split; [done|].
  by apply (Put_Get_same _ _ _ _ _ _ _ Hwf Hv Hput Hne).
Qed.

(** X3.  [Put] does not touch the trie it is called on: that trie reads the
    same for every key afterwards, the result is a different trie under
    [operator==], and memory stays well formed. *)
Theorem Put_leaves_original h t key T v :
  heap_wf h → Trie_valid h t →
  ∃ h' t', Put h t key T v = Some (h', t') ∧
    (∀ k U, Get h' t k U = Get h t k U) ∧
    Trie_eq t' t = false ∧
    heap_wf h' ∧ Trie_valid h' t ∧ Trie_valid h' t'.
Proof.
  intros Hwf Hv. destruct (Put_spec h t key T v Hwf Hv) as (h'&Hput&Hwf'&Hag&Hlt).
  eexists _, _. split; [done|]. split_and!; try done.
  - intros k U. by apply Get_frame.
  - apply bool_decide_eq_false. unfold Trie_valid in Hv. simpl.
    destruct (root_ t) as [r|]; [|done]. intros [= Heq]. lia.
  - eapply Trie_valid_mono; [done|lia].
Qed.


(** X5.  After [Remove(key)] the key is not found, for any type asked for and
    whether or not it was stored before. *)
Theorem Remove_Get_removed h t key :
  heap_wf h → Trie_valid h t →
  ∃ h' t', Remove h t key = Some (h', t') ∧ ∀ U, Get h' t' key U = Some None.
Proof.
  intros Hwf Hv. destruct (Remove_spec h t key Hwf Hv) as (h'&r&Hrm&_).
  destruct (Remove_inv _ _ _ _ _ Hwf Hv Hrm) as (n&r'&_&Hp&Hrec&[= <-]).
  eexists _, _. split; [done|]. intros U.
  destruct (Remove_rec_effect _ _ _ _ _ _ _ _ Hp Hrec) as (_&Hsame&_).
  exact (Hsame U).
Qed.

(** X6.  [Remove(key)] leaves the result of [Get] on every other key as it
    was, also for the keys whose nodes it rebuilt or dropped on the way. *)
Theorem Remove_Get_other h t key :
  heap_wf h → Trie_valid h t →
  ∃ h' t', Remove h t key = Some (h', t') ∧
    ∀ k U, k ≠ key → Get h' t' k U = Get h t k U.
Proof.
  intros Hwf Hv. destruct (Remove_spec h t key Hwf Hv) as (h'&r&Hrm&_).
  destruct (Remove_inv _ _ _ _ _ Hwf Hv Hrm) as (n&r'&Hcl&Hp&Hrec&[= <-]).
  eexists _, _. split; [done|]. intros k U Hne.
  destruct (Remove_rec_effect _ _ _ _ _ _ _ _ Hp Hrec) as (_&_&Hother&_).
  rewrite <- (clone_root_node_view h t n k U Hwf Hv Hcl).
  exact (Hother k U Hne).
Qed.

(** X7.  [Remove] does not touch the trie it is called on, although it
    writes to nodes in place: it writes only to its own clones.  The old trie
    reads the same for every key afterwards and memory stays well formed. *)
Theorem Remove_leaves_original h t key :
  heap_wf h → Trie_valid h t →
  ∃ h' t', Remove h t key = Some (h', t') ∧
    (∀ k U, Get h' t k U = Get h t k U) ∧
    agree_below (length h) h h' ∧
    heap_wf h' ∧ Trie_valid h' t ∧ Trie_valid h' t'.
Proof.
  intros Hwf Hv. destruct (Remove_spec h t key Hwf Hv) as (h'&r&Hrm&Hge&Hlt&Hwf'&Hag).
  eexists _, _. split; [done|]. split_and!; try done.
  - intros k U. by apply Get_frame.
  - eapply Trie_valid_mono; [done|lia].
Qed.

(** X8.  When the key is not stored, [Remove] returns a trie with the same
    content: every key reads as before (only the root differs, which is what
    the version test of the store looks at). *)
Theorem Remove_absent_key_same_content h t key T :
  heap_wf h → Trie_valid h t → Get h t key T = Some None →
  ∃ h' t', Remove h t key = Some (h', t') ∧
    ∀ k U, Get h' t' k U = Get h t k U.
Proof.
  intros Hwf Hv Habs. destruct (Remove_spec h t key Hwf Hv) as (h'&r&Hrm&_).
  destruct (Remove_inv _ _ _ _ _ Hwf Hv Hrm) as (n&r'&Hcl&Hp&Hrec&[= <-]).
  eexists _, _. split; [done|]. intros k U.
  destruct (Remove_rec_effect _ _ _ _ _ _ _ _ Hp Hrec) as (_&Hsame&Hother&_).
  destruct (decide (k = key)) as [->|Hne].
  - rewrite (Get_absent_any_type _ _ _ _ U Habs). exact (Hsame U).
  - rewrite <- (clone_root_node_view h t n k U Hwf Hv Hcl).
    exact (Hother k U Hne).
Qed.

(** X9.  Structural sharing in [Remove]: every path that is not an initial
    part of the key leads to the very node it led to before (or to none, as
    before), and no old node is changed. *)
Theorem Remove_structural_sharing h t key :
  heap_wf h → Trie_valid h t →
  ∃ h' t', Remove h t key = Some (h', t') ∧
    agree_below (length h) h h' ∧
    ∀ p, on_path p key = false → Trie_node h' t' p = Trie_node h t p.
Proof.
  intros Hwf Hv. destruct (Remove_spec h t key Hwf Hv) as (h'&r&Hrm&_&_&_&Hag).
  destruct (Remove_inv _ _ _ _ _ Hwf Hv Hrm) as (n&r'&Hcl&Hp&Hrec&[= <-]).
  eexists _, _. split; [done|]. split; [done|]. intros p Hon.
  destruct (Remove_rec_effect _ _ _ _ _ _ _ _ Hp Hrec) as (_&_&_&Hwalk).
  rewrite <- (clone_root_node_walk h t n p Hwf Hv Hcl) by (intros ->; by destruct key).
  exact (Hwalk p Hon).
Qed.

(** X10.  Pruning for every stored key: after [Remove(key)] of a key that
    held a value, every node that an initial part of the key (of at least one
    character) still leads to carries a value or has a child. *)
Theorem Remove_prunes_stored_key h t key T v :
  heap_wf h → Trie_valid h t → Get h t key T = Some (Some v) →
  ∃ h' t', Remove h t key = Some (h', t') ∧
    ∀ p a n, on_path p key = true → p ≠ EmptyString →
      Trie_node h' t' p = Some (Some a) → h' !! a = Some n → node_live n.
Proof.
  intros Hwf Hv Hget. destruct (Remove_spec h t key Hwf Hv) as (h'&r&Hrm&_).
  destruct (Remove_inv _ _ _ _ _ Hwf Hv Hrm) as (n0&r'&Hcl&Hp&Hrec&[= <-]).
  eexists _, _. split; [done|]. intros p a n Hon Hne Hwalk Ha.
  destruct (clone_root_spec h t Hwf Hv) as (n0'&Hcl'&_&Hn0).
  rewrite Hcl in Hcl'. injection Hcl' as Heq%app_inj_tail. destruct Heq as [_ <-].
  unfold Get, Trie_valid in *. destruct (root_ t) as [r0|]; [|done].
  destruct (lookup_lt_is_Some_2 h r0 Hv) as [m Hm]. rewrite Hm in Hn0. simpl in Hn0.
  assert (key_present h n0 key) as Hkey.
  { subst n0. eapply key_present_Clone; [by eapply heap_wf_lookup|].
    unfold Get_from, Get_value, node_value in Hget.
    destruct (Get_loop h r0 key) as [[b|]|] eqn:Hb; simpl in Hget; [|done..].
    destruct (h !! b) as [nb|] eqn:Hnb; simpl in Hget; [|done].
    destruct (is_value_node_ nb) eqn:Hval; [|done].
    by eapply key_present_Get_loop. }
  destruct (Remove_rec_pruned _ _ _ _ _ _ _ _ _ Hp Hkey Hrec eq_refl) as (_&Hlive&_).
  by apply (Hlive p a n).
Qed.

(** X11.  [Put] followed by [Remove] of the same key gives back the content
    the trie had when the key was not stored before: every key reads as in
    the original trie. *)
Theorem Put_then_Remove_restores h t key T v T0 :
  heap_wf h → Trie_valid h t → Get h t key T0 = Some None →
  ∃ h1 t1 h2 t2,
    Put h t key T v = Some (h1, t1) ∧ Remove h1 t1 key = Some (h2, t2) ∧
    ∀ k U, Get h2 t2 k U = Get h t k U.
Proof.
  intros Hwf Hv Habs. destruct (Put_spec h t key T v Hwf Hv) as (h1&Hput&_).
  destruct (Put_valid _ _ _ _ _ _ _ Hwf Hv Hput) as (Hwf1&Hv1&_).
  destruct (Remove_spec h1 _ key Hwf1 Hv1) as (h2&r&Hrm&_).
  destruct (Remove_inv _ _ _ _ _ Hwf1 Hv1 Hrm) as (n&r'&Hcl&Hp&Hrec&[= <-]).
  eexists _, _, _, _. split; [done|]. split; [done|]. intros k U.
  destruct (Remove_rec_effect _ _ _ _ _ _ _ _ Hp Hrec) as (_&Hsame&Hother&_).
  destruct (decide (k = key)) as [->|Hne].
  - rewrite (Get_absent_any_type _ _ _ _ U Habs). exact (Hsame U).
  - rewrite <- (Put_Get_other _ _ _ _ _ _ _ k U Hwf Hv Hput Hne).
    rewrite <- (clone_root_node_view h1 _ n k U Hwf1 Hv1 Hcl).
    exact (Hother k U Hne).
Qed.

(** ** Versions of the store *)

(** [TrieStore::Get] at an explicit version that exists. *)
Lemma TrieStore_Get_version s key T version trie :
  (0 ≤ version)%Z → version ≠ SIZE_MAX →
  snapshots_ s !! Z.to_nat version = Some trie →
  TrieStore_Get s key T version =
    value ← Get (store_heap s) trie key T;
    match value with
    | None => Some None
    | Some v => Some (Some {| guard_root_ := trie; guard_value_ := v |})
    end.
Proof.
  intros Hge Hne Htrie. unfold TrieStore_Get.
  rewrite (bool_decide_eq_false_2 (version = SIZE_MAX)) by done.
  apply lookup_lt_Some in Htrie as Hlt.
  rewrite bool_decide_eq_false_2 by lia. by rewrite Htrie.
Qed.

(** [TrieStore::Get] without a version reads the last snapshot. *)
Lemma TrieStore_Get_latest s key T back :
  last (snapshots_ s) = Some back →
  (Z.of_nat (length (snapshots_ s)) < size_t_modulus)%Z →
  TrieStore_Get s key T SIZE_MAX =
    value ← Get (store_heap s) back key T;
    match value with
    | None => Some None
    | Some v => Some (Some {| guard_root_ := back; guard_value_ := v |})
    end.
Proof.
  intros Hlast Hlt. unfold TrieStore_Get.
  rewrite (bool_decide_eq_true_2 (SIZE_MAX = SIZE_MAX)) by done.
  assert (0 < length (snapshots_ s)) as Hpos.
  { destruct (snapshots_ s); [done|simpl; lia]. }
  assert (get_version s = Z.of_nat (length (snapshots_ s)) - 1)%Z as ->.
  { unfold get_version. apply Z.mod_small. unfold size_t_modulus in *. lia. }
  rewrite bool_decide_eq_false_2 by lia.
  rewrite last_lookup in Hlast.
  replace (Z.to_nat (Z.of_nat (length (snapshots_ s)) - 1))
    with (pred (length (snapshots_ s))) by lia.
  by rewrite Hlast.
Qed.

(** An existing version reads the same after a snapshot has been appended
    and memory has grown. *)
Lemma TrieStore_Get_extend s h' t' k U old :
  TrieStore_wf s → agree_below (length (store_heap s)) (store_heap s) h' →
  (Z.of_nat (length (snapshots_ s)) < size_t_modulus)%Z →
  (0 ≤ old < Z.of_nat (length (snapshots_ s)))%Z →
  TrieStore_Get {| store_heap := h'; snapshots_ := snapshots_ s ++ [t'] |} k U old =
  TrieStore_Get s k U old.
Proof.
  intros (Hwf&Hall&_) Hag Hlt Hold.
  assert (old ≠ SIZE_MAX) as Hne by (unfold SIZE_MAX; lia).
  destruct (lookup_lt_is_Some_2 (snapshots_ s) (Z.to_nat old)) as [trie Htrie]; [lia|].
  rewrite (TrieStore_Get_version s k U old trie) by (done || lia).
  rewrite (TrieStore_Get_version _ k U old trie); [|lia|done|].
  - simpl.
    pose proof (proj1 (Forall_lookup _ _) Hall _ _ Htrie) as Hvalid.
    by rewrite (Get_frame (store_heap s) h' trie k U Hwf Hvalid Hag).
  - simpl. rewrite lookup_app_l; [done|]. by eapply lookup_lt_Some.
Qed.

(** X12.  [TrieStore::Put] publishes exactly one new version: it returns the
    latest version plus one, appends one snapshot, and a [Get] of the key
    with no version or with the returned version yields the value, guarded
    by the new snapshot. *)
Theorem TrieStore_Put_publishes s key T v :
  TrieStore_wf s → (Z.of_nat (length (snapshots_ s)) < SIZE_MAX)%Z →
  key ≠ EmptyString →
  ∃ s' t',
    TrieStore_Put s key T v = Some (s', (get_version s + 1)%Z) ∧
    snapshots_ s' = snapshots_ s ++ [t'] ∧
    TrieStore_wf s' ∧
    TrieStore_Get s' key T SIZE_MAX =
      Some (Some {| guard_root_ := t'; guard_value_ := v |}) ∧
    TrieStore_Get s' key T (get_version s + 1) =
      Some (Some {| guard_root_ := t'; guard_value_ := v |}).
Proof.
  intros Hs Hlen Hne. destruct (TrieStore_wf_back s Hs) as (back&Hlast&Hv).
  pose proof Hs as (Hwf&Hall&Hnil).
  destruct (Put_spec _ _ key T v Hwf Hv) as (h'&Hput&Hwf'&Hag&Hlt).
  destruct (Put_Get_same _ _ _ _ _ _ _ Hwf Hv Hput Hne) as [Hget _].
  set (t' := {| root_ := Some (length (store_heap s)) |}) in *.
  set (s' := {| store_heap := h'; snapshots_ := snapshots_ s ++ [t'] |}).
  assert (get_version s' = (get_version s + 1)%Z) as Hver.
  { destruct s as [h l]. apply get_version_append; [|done].
    unfold SIZE_MAX in Hlen. simpl in *. lia. }
  assert (TrieStore_Put s key T v = Some (s', (get_version s + 1)%Z)) as Hrun.
  { unfold TrieStore_Put. rewrite Hlast. simpl. rewrite Hput. simpl.
    by rewrite <- Hver. }
  assert (0 < length (snapshots_ s)) as Hpos.
  { destruct (snapshots_ s); [done|simpl; lia]. }
  assert (get_version s = Z.of_nat (length (snapshots_ s)) - 1)%Z as Hgv.
  { unfold get_version. apply Z.mod_small. unfold SIZE_MAX, size_t_modulus in *. lia. }
  exists s', t'. split_and!; [done|done|by eapply TrieStore_Put_wf|..].
  - rewrite (TrieStore_Get_latest s' key T t').
    + simpl. by rewrite Hget.
    + simpl. apply last_snoc.
    + simpl. rewrite length_app. simpl. unfold SIZE_MAX in Hlen. lia.
  - rewrite (TrieStore_Get_version s' key T _ t').
    + simpl. by rewrite Hget.
    + lia.
    + unfold SIZE_MAX in *. lia.
    + simpl. rewrite Hgv.
      replace (Z.to_nat (Z.of_nat (length (snapshots_ s)) - 1 + 1))
        with (length (snapshots_ s) + 0) by lia.
      by rewrite lookup_app_r, Nat.add_sub' by lia.
Qed.

(** X13.  Neither [TrieStore::Put] nor [TrieStore::Remove] changes what an
    existing version reads: after either, [Get] at every earlier version
    gives the result it gave before, for every key and type. *)
Theorem TrieStore_writes_keep_old_versions s key T v :
  TrieStore_wf s → (Z.of_nat (length (snapshots_ s)) < size_t_modulus)%Z →
  (∃ s' ver, TrieStore_Put s key T v = Some (s', ver) ∧
     ∀ k U old, (0 ≤ old < Z.of_nat (length (snapshots_ s)))%Z →
       TrieStore_Get s' k U old = TrieStore_Get s k U old) ∧
  (∃ s' ver, TrieStore_Remove s key = Some (s', ver) ∧
     ∀ k U old, (0 ≤ old < Z.of_nat (length (snapshots_ s)))%Z →
       TrieStore_Get s' k U old = TrieStore_Get s k U old).
Proof.
  intros Hs Hlen. destruct (TrieStore_wf_back s Hs) as (back&Hlast&Hv).
  pose proof Hs as (Hwf&Hall&Hnil). split.
  - destruct (Put_spec _ _ key T v Hwf Hv) as (h'&Hput&Hwf'&Hag&Hlt).
    eexists _, _. split.
    + unfold TrieStore_Put. rewrite Hlast. simpl. rewrite Hput. done.
    + intros k U old Hold. by apply TrieStore_Get_extend.
  - destruct (Remove_spec _ _ key Hwf Hv) as (h'&r&Hrm&Hge&Hlt&Hwf'&Hag).
    assert (Trie_eq {| root_ := Some r |} back = false) as Hneq.
    { apply bool_decide_eq_false. unfold Trie_valid in Hv. simpl.
      destruct (root_ back) as [r0|]; [|done]. intros [= Heq]. lia. }
    eexists _, _. split.
    + unfold TrieStore_Remove. rewrite Hlast. simpl. rewrite Hrm. simpl.
      by rewrite Hneq.
    + intros k U old Hold. by apply TrieStore_Get_extend.
Qed.

(** X14.  After [TrieStore::Remove(key)] a [Get] of the key with no version
    finds nothing, for every type asked for, and the store is well formed
    again. *)
Theorem TrieStore_Remove_hides_key s key :
  TrieStore_wf s → (Z.of_nat (length (snapshots_ s)) < SIZE_MAX)%Z →
  ∃ s' ver,
    TrieStore_Remove s key = Some (s', ver) ∧
    TrieStore_wf s' ∧
    ∀ U, TrieStore_Get s' key U SIZE_MAX = Some None.
Proof.
  intros Hs Hlen. destruct (TrieStore_wf_back s Hs) as (back&Hlast&Hv).
  pose proof Hs as (Hwf&Hall&Hnil).
  destruct (Remove_spec _ _ key Hwf Hv) as (h'&r&Hrm&Hge&Hlt&Hwf'&Hag).
  destruct (Remove_inv _ _ _ _ _ Hwf Hv Hrm) as (n&r'&_&Hp&Hrec&[= <-]).
  destruct (Remove_rec_effect _ _ _ _ _ _ _ _ Hp Hrec) as (_&Hsame&_).
  assert (Trie_eq {| root_ := Some r |} back = false) as Hneq.
  { apply bool_decide_eq_false. unfold Trie_valid in Hv. simpl.
    destruct (root_ back) as [r0|]; [|done]. intros [= Heq]. lia. }
  assert (TrieStore_Remove s key =
    Some ({| store_heap := h'; snapshots_ := snapshots_ s ++ [{| root_ := Some r |}] |},
          get_version
            {| store_heap := h';
               snapshots_ := snapshots_ s ++ [{| root_ := Some r |}] |})) as Hrun.
  { unfold TrieStore_Remove. rewrite Hlast. simpl. rewrite Hrm. simpl.
    by rewrite Hneq. }
  eexists _, _. split; [exact Hrun|]. split; [by eapply TrieStore_Remove_wf|].
  intros U. rewrite (TrieStore_Get_latest _ key U {| root_ := Some r |}).
  - simpl. unfold Get. simpl. specialize (Hsame U). simpl in Hsame. by rewrite Hsame.
  - simpl. apply last_snoc.
  - simpl. rewrite length_app. simpl. unfold SIZE_MAX in Hlen. lia.
Qed.

(** ** No dead branches *)

Lemma node_live_Clone b n : node_wf b n → node_live n → node_live (Clone n).
Proof.
  intros [Hflag _] Hlive. unfold node_live, Clone in *.
  destruct (value_ n) as [[T v]|]; simpl in *; [by left|].
  destruct Hlive as [Hl|Hl]; [congruence|by right].
Qed.

(** The nodes that the loop of [Put] leaves along the key are live. *)
Lemma Put_loop_live h0 key T v : ∀ h node n h' p a n',
  private_node h0 h node n →
  Put_loop h node key T v = Some h' →
  on_path p key = true → p ≠ EmptyString →
  Get_loop h' node p = Some (Some a) → h' !! a = Some n' → node_live n'.
Proof.
  induction key as [|c key IH]; intros h node n h' p a n' Hp Hrun Hon Hne.
  - by destruct p.
  - destruct p as [|c' p]; [done|].
    simpl in Hon. apply andb_prop in Hon as [->%bool_decide_eq_true Hon].
    destruct (Put_loop_unfold _ _ _ _ _ _ _ _ _ Hp Hrun)
      as (new&h2&Hnew&Hp2&Hrun2&Hnode&_).
    simpl. rewrite Hnode. simpl. rewrite lookup_insert_eq.
    destruct p as [|c2 p]; [|by eapply IH].
    simpl. intros [= <-] Ha.
    destruct (Put_loop_spec h0 key T v _ _ _ Hp2)
      as (h''&n''&Hrun'&_&_&_&Hn''&Hflag&_&Hch).
    rewrite Hrun2 in Hrun'. injection Hrun' as <-.
    rewrite Ha in Hn''. injection Hn'' as <-.
    destruct key as [|c2 key].
    + left. rewrite Hflag. rewrite bool_decide_eq_true_2 in Hnew by done.
      by apply Put_child_last in Hnew as [? _].
    + right. rewrite Hch. apply insert_non_empty.
Qed.

(** The nodes that the recursion of [Remove] keeps along the key are live
    when those it started from were. *)
Lemma Remove_rec_live h0 key : ∀ h node n pos h' r a,
  private_node h0 h node n →
  (pos ≠ 0 → node_live n) →
  (∀ p b nb, on_path p key = true → p ≠ EmptyString →
     node_walk h0 n p = Some (Some b) → h0 !! b = Some nb → node_live nb) →
  Remove_rec h node pos key = Some (h', r) → r = Some a →
  ∀ p b nb, on_path p key = true → (pos = 0 → p ≠ EmptyString) →
    Get_loop h' a p = Some (Some b) → h' !! b = Some nb → node_live nb.
Proof.
  induction key as [|c key IH]; intros h node n pos h' r a Hp Hroot Hold Hrm ->;
    pose proof (private_node_lt _ _ _ _ Hp) as Hlt;
    pose proof Hp as (Hwf0&Hwf&Hag&Hge&Hn&Hnwf);
    simpl in Hrm; rewrite Hn in Hrm; simpl in Hrm.
  - intros [|c p] b nb Hon Hpos; [|done].
    assert (pos ≠ 0) as Hpos' by (intros ->; by apply Hpos).
    simpl. intros [= <-].
    destruct (is_value_node_ n) eqn:Hval; simpl in Hrm.
    + destruct (bool_decide (pos ≠ 0) && bool_decide (children_ n = ∅)) eqn:Hprune;
        [done|].
      injection Hrm as <- <-. rewrite length_insert.
      rewrite lookup_app_r, length_insert, Nat.sub_diag by (rewrite length_insert; lia).
      intros [= <-]. right. simpl.
      rewrite bool_decide_eq_true_2 in Hprune by done. simpl in Hprune.
      by apply bool_decide_eq_false in Hprune.
    + injection Hrm as <- <-. rewrite Hn. intros [= <-]. by apply Hroot.
  - destruct (children_ n !! c) as [x|] eqn:Hx.
    2:{ injection Hrm as <- <-. intros [|c' p] b nb Hon Hpos; simpl.
        - intros [= <-]. rewrite Hn. intros [= <-]. apply Hroot.
          intros ->. by apply Hpos.
        - simpl in Hon. apply andb_prop in Hon as [->%bool_decide_eq_true Hon].
          by rewrite Hn; simpl; rewrite Hx. }
    assert (x < length h0) as Hxlt by (by eapply node_wf_child).
    destruct (private_node_old _ _ _ _ x Hp Hxlt) as (m&Hm&Hm0&Hmwf).
    rewrite Hm in Hrm. simpl in Hrm.
    pose proof (private_node_alloc _ _ _ _ (Clone m) Hp (node_wf_Clone _ _ Hmwf)) as Hp1.
    destruct (Remove_rec_spec h0 key _ _ _ (S pos) Hp1)
      as (h2&new_child&Hrec&Hwf2&Hle2&Hfr2&Hres2).
    rewrite Hrec in Hrm. simpl in Hrm.
    rewrite length_app in Hle2, Hfr2. simpl in Hle2, Hfr2.
    rewrite Hfr2, lookup_app_l, Hn in Hrm by lia. simpl in Hrm.
    destruct (Remove_rec_effect _ _ _ _ _ _ _ _ Hp1 Hrec) as (Hreach&_).
    assert (node_live m) as Hmlive.
    { apply (Hold (String c EmptyString) x m); [|done| |done].
      - simpl. by rewrite bool_decide_eq_true_2.
      - simpl. by rewrite Hx. }
    assert (∀ a2 p b nb, new_child = Some a2 → on_path p key = true →
      Get_loop h2 a2 p = Some (Some b) → h2 !! b = Some nb → node_live nb) as IH2.
    { assert (S pos ≠ 0 → node_live (Clone m)) as H1
        by (intros _; by eapply node_live_Clone).
      assert (∀ p' b' nb', on_path p' key = true → p' ≠ EmptyString →
        node_walk h0 (Clone m) p' = Some (Some b') → h0 !! b' = Some nb' →
        node_live nb') as H2.
      { intros p' b' nb' Hon' Hne'. rewrite node_walk_Clone.
        rewrite <- (node_walk_lookup _ _ _ _ Hm0 Hne'). intros Hwalk.
        apply (Hold (String c p') b' nb').
        - simpl. by rewrite bool_decide_eq_true_2.
        - done.
        - simpl. by rewrite Hx. }
      intros a2 p b nb Ha2 Hon Hwalk Hb.
      apply (IH _ _ _ (S pos) _ _ a2 Hp1 H1 H2 Hrec Ha2 p b nb Hon); done. }
    set (children := match new_child with
                     | Some a => <[c:=a]> (children_ n)
                     | None => delete c (children_ n)
                     end) in Hrm.
    destruct (bool_decide (pos ≠ 0) && bool_decide (children = ∅)
              && negb (is_value_node_ n)) eqn:Hprune; [done|].
    injection Hrm as <- <-.
    assert (<[node:=set_children n children]> h2 !! node
            = Some (set_children n children)) as Hnode.
    { apply list_lookup_insert_eq. lia. }
    intros [|c' p] b nb Hon Hpos; simpl.
    + intros [= <-]. rewrite Hnode. intros [= <-].
      destruct pos; [by destruct Hpos|].
      rewrite bool_decide_eq_true_2 in Hprune by done. simpl in Hprune.
      apply andb_false_iff in Hprune as [Hpr|Hpr].
      * right. by apply bool_decide_eq_false in Hpr.
      * left. by apply negb_false_iff in Hpr.
    + simpl in Hon. apply andb_prop in Hon as [->%bool_decide_eq_true Hon].
      rewrite Hnode. simpl. unfold children.
      destruct new_child as [a2|]; [|by rewrite lookup_delete_eq].
      rewrite lookup_insert_eq.
      assert (∀ q b', Get_loop h2 a2 q = Some (Some b') → b' ≠ node) as Hav.
      { intros q b' Hwalk. destruct (Hreach a2 eq_refl q b' Hwalk); lia. }
      rewrite Get_loop_insert_avoid by (intros q b' _; apply Hav).
      intros Hwalk. rewrite list_lookup_insert_ne by (intros <-; by apply (Hav p node)).
      by apply (IH2 a2 p b nb).
Qed.

Lemma Trie_node_old h t p a :
  heap_wf h → Trie_valid h t → Trie_node h t p = Some (Some a) → a < length h.
Proof.
  unfold Trie_node, Trie_valid. intros Hwf Hv Hwalk.
  destruct (root_ t) as [r|]; [|done]. by eapply Get_loop_bound.
Qed.

(** X15.  [Put] keeps a trie free of dead branches: if every node below the
    root carries a value or has a child, the same holds of the result. *)
Theorem Put_keeps_pruned h t key T v :
  heap_wf h → Trie_valid h t → trie_pruned h t →
  ∃ h' t', Put h t key T v = Some (h', t') ∧ trie_pruned h' t'.
Proof.
  intros Hwf Hv Hpr. destruct (Put_spec h t key T v Hwf Hv) as (h'&Hput&Hwf'&Hag&_).
  destruct (Put_inv _ _ _ _ _ _ _ Hwf Hv Hput) as (n&Hcl&Hp&Hrun&_).
  eexists _, _. split; [done|]. intros p a n' Hne Hwalk Ha.
  destruct (on_path p key) eqn:Hon.
  - by eapply (Put_loop_live _ _ _ _ _ _ _ _ p a n' Hp Hrun).
  - unfold Trie_node in Hwalk at 1. simpl in Hwalk.
    rewrite (Put_loop_shared _ _ _ _ _ _ _ _ _ Hp Hrun Hon) in Hwalk.
    rewrite (clone_root_walk h t n p Hwf Hv Hcl Hne) in Hwalk.
    apply (Hpr p a n' Hne Hwalk). rewrite <- Hag; [done|].
    by eapply Trie_node_old.
Qed.

(** X16.  [Remove] keeps a trie free of dead branches, whether or not the
    key is stored. *)
Theorem Remove_keeps_pruned h t key :
  heap_wf h → Trie_valid h t → trie_pruned h t →
  ∃ h' t', Remove h t key = Some (h', t') ∧ trie_pruned h' t'.
Proof.
  intros Hwf Hv Hpr. destruct (Remove_spec h t key Hwf Hv) as (h'&r&Hrm&_&_&_&Hag).
  destruct (Remove_inv _ _ _ _ _ Hwf Hv Hrm) as (n&r'&Hcl&Hp&Hrec&[= <-]).
  eexists _, _. split; [done|]. intros p a n' Hne Hwalk Ha.
  destruct (on_path p key) eqn:Hon.
  - apply (Remove_rec_live _ _ _ _ _ _ _ _ _ Hp (λ H, False_ind _ (H eq_refl))
             (λ p' b nb Hon' Hne' Hw Hb,
                Hpr p' b nb Hne'
                  (eq_trans (eq_sym (clone_root_node_walk h t n p' Hwf Hv Hcl Hne')) Hw) Hb)
             Hrec eq_refl p a n' Hon (λ _, Hne) Hwalk Ha).
  - destruct (Remove_rec_effect _ _ _ _ _ _ _ _ Hp Hrec) as (_&_&_&Hshare).
    specialize (Hshare p Hon). simpl in Hshare.
    unfold Trie_node in Hwalk at 1. simpl in Hwalk. rewrite Hshare in Hwalk.
    rewrite (clone_root_node_walk h t n p Hwf Hv Hcl Hne) in Hwalk.
    apply (Hpr p a n' Hne Hwalk). rewrite <- Hag; [done|].
    by eapply Trie_node_old.
Qed.

End TrieProperties.

(** * The claims on the example memories *)

Lemma example_heap_wf : heap_wf example_heap.
Proof. by_evaluation. Defined.

Lemma example_trie_valid : Trie_valid example_heap example_trie.
Proof. by_evaluation. Defined.

Lemma example_store_wf : TrieStore_wf example_store.
Proof. by_evaluation. Defined.

(** C1 on a fresh store, for the key "a" that it does not hold. *)
Lemma TrieStore_Remove_always_appends_witness :
  TrieStore_wf fresh_store ∧
  ∃ back h' t',
    last (snapshots_ fresh_store) = Some back ∧
    Remove (store_heap fresh_store) back "a" = Some (h', t') ∧
    Trie_eq t' back = false ∧
    TrieStore_Remove fresh_store "a" =
      Some ({| store_heap := h'; snapshots_ := snapshots_ fresh_store ++ [t'] |},
            get_version
              {| store_heap := h'; snapshots_ := snapshots_ fresh_store ++ [t'] |}) ∧
    ((Z.of_nat (length (snapshots_ fresh_store)) < size_t_modulus)%Z →
     get_version {| store_heap := h'; snapshots_ := snapshots_ fresh_store ++ [t'] |} =
     (get_version fresh_store + 1)%Z).
Proof.
  assert (TrieStore_wf fresh_store) as H by by_evaluation.
  split; [exact H|].
  exact (TrieStore_Remove_always_appends fresh_store "a" H).
Defined.

(** C2 on the empty trie: "ab" is put as an [int] and read as a
    [std::string]. *)
Lemma Get_type_mismatch_dereferences_null_witness :
  heap_wf empty_heap ∧ Trie_valid empty_heap Trie_default ∧
  "ab" ≠ EmptyString ∧ cpp_string ≠ cpp_int ∧
  ∃ h' t', Put empty_heap Trie_default "ab" cpp_int 1%Z = Some (h', t') ∧
    Get h' t' "ab" cpp_string = None ∧ Get h' t' "ab" cpp_string ≠ Some None.
Proof.
  assert (heap_wf empty_heap) as H1 by by_evaluation.
  assert (Trie_valid empty_heap Trie_default) as H2 by by_evaluation.
  assert ("ab" ≠ EmptyString) as H3 by discriminate.
  assert (cpp_string ≠ cpp_int) as H4 by discriminate.
  split; [exact H1|]. split; [exact H2|]. split; [exact H3|]. split; [exact H4|].
  exact (Get_type_mismatch_dereferences_null empty_heap Trie_default "ab"
           cpp_int 1%Z cpp_string H1 H2 H3 H4).
Defined.

(** C4 as stated fails at the version [SIZE_MAX]: the code takes it for the
    default argument and reads the latest snapshot. *)
Lemma TrieStore_Get_SIZE_MAX_reads_latest :
  (Z.of_nat (length (snapshots_ example_store)) ≤ SIZE_MAX)%Z ∧
  TrieStore_Get example_store "ab" cpp_int SIZE_MAX =
    Some (Some {| guard_root_ := example_trie; guard_value_ := 7%Z |}) ∧
  TrieStore_Get example_store "ab" cpp_int SIZE_MAX ≠ Some None.
Proof.
  split; [by vm_compute|]. split; [by vm_compute|]. by vm_compute.
Qed.

(** C4, amended, on the example store: version 2 of two snapshots. *)
Lemma TrieStore_Get_out_of_range_witness :
  2%Z ≠ SIZE_MAX ∧ (Z.of_nat (length (snapshots_ example_store)) ≤ 2)%Z ∧
  TrieStore_Get example_store "ab" cpp_int 2 = Some None.
Proof.
  assert (2%Z ≠ SIZE_MAX) as H1 by discriminate.
  assert (Z.of_nat (length (snapshots_ example_store)) ≤ 2)%Z as H2
    by (by vm_compute).
  split; [exact H1|]. split; [exact H2|].
  exact (TrieStore_Get_out_of_range example_store "ab" cpp_int 2 H1 H2).
Defined.

(** C5 on the example trie. *)
Lemma Put_prefix_independence_witness :
  heap_wf example_heap ∧ Trie_valid example_heap example_trie ∧
  (∀ key T v k U, k ≠ key →
     ∃ h' t', Put example_heap example_trie key T v = Some (h', t') ∧
       Get h' t' k U = Get example_heap example_trie k U) ∧
  ∃ h1 t1 h2 t2,
    Put example_heap example_trie "ab" cpp_int 1%Z = Some (h1, t1) ∧
    Put h1 t1 "a" cpp_string 2%Z = Some (h2, t2) ∧
    Get h2 t2 "ab" cpp_int = Some (Some 1%Z) ∧
    Get h2 t2 "a" cpp_string = Some (Some 2%Z).
Proof.
  split; [exact example_heap_wf|]. split; [exact example_trie_valid|].
  exact (Put_prefix_independence example_heap example_trie cpp_int 1%Z cpp_string 2%Z
           example_heap_wf example_trie_valid).
Defined.

(** C7 on the example trie, for the key "ac". *)
Lemma Put_structural_sharing_witness :
  heap_wf example_heap ∧ Trie_valid example_heap example_trie ∧
  ∃ h' t', Put example_heap example_trie "ac" cpp_int 1%Z = Some (h', t') ∧
    agree_below (length example_heap) example_heap h' ∧
    (∀ p, on_path p "ac" = false →
       Trie_node h' t' p = Trie_node example_heap example_trie p) ∧
    (∀ p, on_path p "ac" = true →
       ∃ a, Trie_node h' t' p = Some (Some a) ∧ example_heap !! a = None ∧
         is_Some (h' !! a)).
Proof.
  split; [exact example_heap_wf|]. split; [exact example_trie_valid|].
  exact (Put_structural_sharing example_heap example_trie "ac" cpp_int 1%Z
           example_heap_wf example_trie_valid).
Defined.

Lemma example_heap_abc_wf : heap_wf example_heap_abc.
Proof. by_evaluation. Defined.

Lemma example_trie_abc_valid : Trie_valid example_heap_abc example_trie_abc.
Proof. by_evaluation. Defined.

(** C8 as stated fails on the trie that holds "abc" (built here by [Put] from
    the empty trie): after [Put("ab", 1)] and [Remove("ab")] path "a" still
    leads to a node, and that node holds no value and has no child other
    than 'b'. *)
Lemma Remove_keeps_path_with_descendants :
  Put empty_heap Trie_default "abc" cpp_int 2%Z =
    Some (example_heap_abc, example_trie_abc) ∧
  ∃ h1 t1 h2 t2 a n x,
    Put example_heap_abc example_trie_abc "ab" cpp_int 1%Z = Some (h1, t1) ∧
    Remove h1 t1 "ab" = Some (h2, t2) ∧
    Trie_node h2 t2 "a" = Some (Some a) ∧ h2 !! a = Some n ∧
    is_value_node_ n = false ∧ children_ n = {[ "b"%char := x ]} ∧
    (∀ c, c ≠ "b"%char → children_ n !! c = None).
Proof.
  split; [vm_compute; reflexivity|].
  eexists _, _, _, _, _, _, _.
  split; [vm_compute; reflexivity|].
  split; [vm_compute; reflexivity|].
  split; [vm_compute; reflexivity|].
  split; [vm_compute; reflexivity|].
  split; [reflexivity|].
  assert (∀ A (m : gmap ascii A) k x c,
    m = {[ k := x ]} → c ≠ k → m !! c = None) as Hsingle.
  { intros A m k x c -> Hc. by apply lookup_singleton_ne. }
  split; [vm_compute; reflexivity|].
  intros c Hc. eapply Hsingle; [|exact Hc]. vm_compute. reflexivity.
Qed.

(** C8, amended, on the trie that holds "abc": the nodes at "a" and "ab" are
    both kept. *)
Lemma Remove_prunes_path_witness :
  heap_wf example_heap_abc ∧ Trie_valid example_heap_abc example_trie_abc ∧
  (∃ h1 t1 h2 t2,
    Put example_heap_abc example_trie_abc "ab" cpp_int 1%Z = Some (h1, t1) ∧
    Remove h1 t1 "ab" = Some (h2, t2) ∧
    (∀ a n, Trie_node h2 t2 "a" = Some (Some a) → h2 !! a = Some n →
       is_value_node_ n = true ∨
       (∃ c x, c ≠ "b"%char ∧ children_ n !! c = Some x) ∨
       (∃ x m, children_ n !! "b"%char = Some x ∧
          Trie_node h2 t2 "ab" = Some (Some x) ∧ h2 !! x = Some m ∧
          is_value_node_ m = false ∧ children_ m ≠ ∅)) ∧
    (∀ p a n, p = "a" ∨ p = "ab" →
       Trie_node h2 t2 p = Some (Some a) → h2 !! a = Some n → node_live n) ∧
    (∀ a n, Trie_node h2 t2 "ab" = Some (Some a) → h2 !! a = Some n →
       is_value_node_ n = false ∧ children_ n ≠ ∅)) ∧
  (∃ h1 t1 h2 t2,
    Put [] Trie_default "ab" cpp_int 1%Z = Some (h1, t1) ∧
    Trie_node h1 t1 "a" = Some (Some 1) ∧
    Remove h1 t1 "ab" = Some (h2, t2) ∧
    Trie_node h2 t2 "a" = Some None).
Proof.
  split; [exact example_heap_abc_wf|]. split; [exact example_trie_abc_valid|].
  exact (Remove_prunes_path example_heap_abc example_trie_abc cpp_int 1%Z
           example_heap_abc_wf example_trie_abc_valid).
Defined.

(** C10 on the example trie, for its one key. *)
Lemma Remove_root_never_null_witness :
  heap_wf example_heap ∧ Trie_valid example_heap example_trie ∧
  (∃ h' r n,
    Remove example_heap example_trie "ab" = Some (h', {| root_ := Some r |}) ∧
    h' !! r = Some n ∧
    Trie_eq {| root_ := Some r |} Trie_default = false) ∧
  (∀ (T : cpp_type) (v : Z), ∃ h1 t1 h2 r,
    Put [] Trie_default "ab" T v = Some (h1, t1) ∧
    Remove h1 t1 "ab" = Some (h2, {| root_ := Some r |}) ∧
    h2 !! r = Some TrieNode_default).
Proof.
  split; [exact example_heap_wf|]. split; [exact example_trie_valid|].
  exact (Remove_root_never_null example_heap example_trie "ab"
           example_heap_wf example_trie_valid).
Defined.

(** * The further properties on the example memories *)

Lemma example_trie_pruned : trie_pruned example_heap example_trie.
Proof.
  assert (∀ a n, (a = 1 ∨ a = 2) → example_heap !! a = Some n → node_live n) as Hlive.
  { intros a n [-> | ->] [= <-]; [right|left]; simpl; [apply insert_non_empty|done]. }
  assert (∀ p a, Get_loop example_heap 2 p = Some (Some a) → a = 2) as H2.
  { intros [|c p] a; cbn [Get_loop]; [by intros [= <-]|].
    change (example_heap !! 2)
      with (Some (@TrieNodeWithValue_leaf cpp_type Z cpp_int 7%Z)).
    cbn [mbind option_bind children_ TrieNodeWithValue_leaf].
    by rewrite lookup_empty. }
  assert (∀ p a, Get_loop example_heap 1 p = Some (Some a) → a = 1 ∨ a = 2) as H1.
  { intros [|c p] a; cbn [Get_loop]; [intros [= <-]; by left|].
    change (example_heap !! 1)
      with (Some (@mkTrieNode cpp_type Z {[ "b"%char := 2 ]} false None)).
    cbn [mbind option_bind children_]. rewrite lookup_singleton.
    case_decide; [|done]. intros ?%H2. by right. }
  intros [|c p] a n Hne; [done|]. unfold Trie_node. cbn [root_ example_trie Get_loop].
  change (example_heap !! 0)
    with (Some (@mkTrieNode cpp_type Z {[ "a"%char := 1 ]} false None)).
  cbn [mbind option_bind children_]. rewrite lookup_singleton.
  case_decide; [|done]. intros Hw%H1. by apply Hlive.
Qed.

Lemma example_key_ab : "ab" ≠ EmptyString.
Proof. discriminate. Defined.

Lemma example_get_ab : Get example_heap example_trie "ab" cpp_int = Some (Some 7%Z).
Proof. vm_compute. reflexivity. Defined.

Lemma example_get_zz : Get example_heap example_trie "zz" cpp_int = Some None.
Proof. vm_compute. reflexivity. Defined.

Lemma example_store_short :
  (Z.of_nat (length (snapshots_ example_store)) < SIZE_MAX)%Z.
Proof. vm_compute. reflexivity. Defined.

Lemma example_store_short' :
  (Z.of_nat (length (snapshots_ example_store)) < size_t_modulus)%Z.
Proof. vm_compute. reflexivity. Defined.

(** X1 on the example trie, read for a [std::string]. *)
Lemma Get_undefined_only_on_type_mismatch_witness :
  heap_wf example_heap ∧ Trie_valid example_heap example_trie ∧
  (Get example_heap example_trie "ab" cpp_string = None ↔
   ∃ a n T' v, Trie_node example_heap example_trie "ab" = Some (Some a) ∧
     example_heap !! a = Some n ∧ value_ n = Some (T', v) ∧ T' ≠ cpp_string).
Proof.
  split; [exact example_heap_wf|]. split; [exact example_trie_valid|].
  exact (Get_undefined_only_on_type_mismatch example_heap example_trie "ab" cpp_string
           example_heap_wf example_trie_valid).
Defined.

(** X2 on the example trie. *)
Lemma Put_Get_round_trip_witness :
  heap_wf example_heap ∧ Trie_valid example_heap example_trie ∧ "ab" ≠ EmptyString ∧
  ∃ h' t', Put example_heap example_trie "ab" cpp_string 9%Z = Some (h', t') ∧
    Get h' t' "ab" cpp_string = Some (Some 9%Z).
Proof.
  split; [exact example_heap_wf|]. split; [exact example_trie_valid|].
  split; [exact example_key_ab|].
  exact (Put_Get_round_trip example_heap example_trie "ab" cpp_string 9%Z
           example_heap_wf example_trie_valid example_key_ab).
Defined.

(** X3 on the example trie. *)
Lemma Put_leaves_original_witness :
  heap_wf example_heap ∧ Trie_valid example_heap example_trie ∧
  ∃ h' t', Put example_heap example_trie "ab" cpp_int 9%Z = Some (h', t') ∧
    (∀ k U, Get h' example_trie k U = Get example_heap example_trie k U) ∧
    Trie_eq t' example_trie = false ∧
    heap_wf h' ∧ Trie_valid h' example_trie ∧ Trie_valid h' t'.
Proof.
  split; [exact example_heap_wf|]. split; [exact example_trie_valid|].
  exact (Put_leaves_original example_heap example_trie "ab" cpp_int 9%Z
           example_heap_wf example_trie_valid).
Defined.


(** X5 on the example trie. *)
Lemma Remove_Get_removed_witness :
  heap_wf example_heap ∧ Trie_valid example_heap example_trie ∧
  ∃ h' t', Remove example_heap example_trie "ab" = Some (h', t') ∧
    ∀ U, Get h' t' "ab" U = Some None.
Proof.
  split; [exact example_heap_wf|]. split; [exact example_trie_valid|].
  exact (Remove_Get_removed example_heap example_trie "ab"
           example_heap_wf example_trie_valid).
Defined.

(** X6 on the example trie. *)
Lemma Remove_Get_other_witness :
  heap_wf example_heap ∧ Trie_valid example_heap example_trie ∧
  ∃ h' t', Remove example_heap example_trie "a" = Some (h', t') ∧
    ∀ k U, k ≠ "a" → Get h' t' k U = Get example_heap example_trie k U.
Proof.
  split; [exact example_heap_wf|]. split; [exact example_trie_valid|].
  exact (Remove_Get_other example_heap example_trie "a"
           example_heap_wf example_trie_valid).
Defined.

(** X7 on the example trie. *)
Lemma Remove_leaves_original_witness :
  heap_wf example_heap ∧ Trie_valid example_heap example_trie ∧
  ∃ h' t', Remove example_heap example_trie "ab" = Some (h', t') ∧
    (∀ k U, Get h' example_trie k U = Get example_heap example_trie k U) ∧
    agree_below (length example_heap) example_heap h' ∧
    heap_wf h' ∧ Trie_valid h' example_trie ∧ Trie_valid h' t'.
Proof.
  split; [exact example_heap_wf|]. split; [exact example_trie_valid|].
  exact (Remove_leaves_original example_heap example_trie "ab"
           example_heap_wf example_trie_valid).
Defined.

(** X8 on the example trie, for the key "zz" that it does not hold. *)
Lemma Remove_absent_key_same_content_witness :
  heap_wf example_heap ∧ Trie_valid example_heap example_trie ∧
  Get example_heap example_trie "zz" cpp_int = Some None ∧
  ∃ h' t', Remove example_heap example_trie "zz" = Some (h', t') ∧
    ∀ k U, Get h' t' k U = Get example_heap example_trie k U.
Proof.
  split; [exact example_heap_wf|]. split; [exact example_trie_valid|].
  split; [exact example_get_zz|].
  exact (Remove_absent_key_same_content example_heap example_trie "zz" cpp_int
           example_heap_wf example_trie_valid example_get_zz).
Defined.

(** X9 on the example trie. *)
Lemma Remove_structural_sharing_witness :
  heap_wf example_heap ∧ Trie_valid example_heap example_trie ∧
  ∃ h' t', Remove example_heap example_trie "a" = Some (h', t') ∧
    agree_below (length example_heap) example_heap h' ∧
    ∀ p, on_path p "a" = false →
      Trie_node h' t' p = Trie_node example_heap example_trie p.
Proof.
  split; [exact example_heap_wf|]. split; [exact example_trie_valid|].
  exact (Remove_structural_sharing example_heap example_trie "a"
           example_heap_wf example_trie_valid).
Defined.

(** X10 on the example trie, for its one key. *)
Lemma Remove_prunes_stored_key_witness :
  heap_wf example_heap ∧ Trie_valid example_heap example_trie ∧
  Get example_heap example_trie "ab" cpp_int = Some (Some 7%Z) ∧
  ∃ h' t', Remove example_heap example_trie "ab" = Some (h', t') ∧
    ∀ p a n, on_path p "ab" = true → p ≠ EmptyString →
      Trie_node h' t' p = Some (Some a) → h' !! a = Some n → node_live n.
Proof.
  split; [exact example_heap_wf|]. split; [exact example_trie_valid|].
  split; [exact example_get_ab|].
  exact (Remove_prunes_stored_key example_heap example_trie "ab" cpp_int 7%Z
           example_heap_wf example_trie_valid example_get_ab).
Defined.

(** X11 on the example trie, for the key "zz" that it does not hold. *)
Lemma Put_then_Remove_restores_witness :
  heap_wf example_heap ∧ Trie_valid example_heap example_trie ∧
  Get example_heap example_trie "zz" cpp_int = Some None ∧
  ∃ h1 t1 h2 t2,
    Put example_heap example_trie "zz" cpp_string 3%Z = Some (h1, t1) ∧
    Remove h1 t1 "zz" = Some (h2, t2) ∧
    ∀ k U, Get h2 t2 k U = Get example_heap example_trie k U.
Proof.
  split; [exact example_heap_wf|]. split; [exact example_trie_valid|].
  split; [exact example_get_zz|].
  exact (Put_then_Remove_restores example_heap example_trie "zz" cpp_string 3%Z cpp_int
           example_heap_wf example_trie_valid example_get_zz).
Defined.

(** X12 on the example store. *)
Lemma TrieStore_Put_publishes_witness :
  TrieStore_wf example_store ∧
  (Z.of_nat (length (snapshots_ example_store)) < SIZE_MAX)%Z ∧
  "ab" ≠ EmptyString ∧
  ∃ s' t',
    TrieStore_Put example_store "ab" cpp_int 9%Z =
      Some (s', (get_version example_store + 1)%Z) ∧
    snapshots_ s' = snapshots_ example_store ++ [t'] ∧
    TrieStore_wf s' ∧
    TrieStore_Get s' "ab" cpp_int SIZE_MAX =
      Some (Some {| guard_root_ := t'; guard_value_ := 9%Z |}) ∧
    TrieStore_Get s' "ab" cpp_int (get_version example_store + 1) =
      Some (Some {| guard_root_ := t'; guard_value_ := 9%Z |}).
Proof.
  split; [exact example_store_wf|]. split; [exact example_store_short|].
  split; [exact example_key_ab|].
  exact (TrieStore_Put_publishes example_store "ab" cpp_int 9%Z
           example_store_wf example_store_short example_key_ab).
Defined.

(** X13 on the example store. *)
Lemma TrieStore_writes_keep_old_versions_witness :
  TrieStore_wf example_store ∧
  (Z.of_nat (length (snapshots_ example_store)) < size_t_modulus)%Z ∧
  (∃ s' ver, TrieStore_Put example_store "ab" cpp_int 9%Z = Some (s', ver) ∧
     ∀ k U old, (0 ≤ old < Z.of_nat (length (snapshots_ example_store)))%Z →
       TrieStore_Get s' k U old = TrieStore_Get example_store k U old) ∧
  (∃ s' ver, TrieStore_Remove example_store "ab" = Some (s', ver) ∧
     ∀ k U old, (0 ≤ old < Z.of_nat (length (snapshots_ example_store)))%Z →
       TrieStore_Get s' k U old = TrieStore_Get example_store k U old).
Proof.
  split; [exact example_store_wf|]. split; [exact example_store_short'|].
  exact (TrieStore_writes_keep_old_versions example_store "ab" cpp_int 9%Z
           example_store_wf example_store_short').
Defined.

(** X14 on the example store. *)
Lemma TrieStore_Remove_hides_key_witness :
  TrieStore_wf example_store ∧
  (Z.of_nat (length (snapshots_ example_store)) < SIZE_MAX)%Z ∧
  ∃ s' ver,
    TrieStore_Remove example_store "ab" = Some (s', ver) ∧
    TrieStore_wf s' ∧
    ∀ U, TrieStore_Get s' "ab" U SIZE_MAX = Some None.
Proof.
  split; [exact example_store_wf|]. split; [exact example_store_short|].
  exact (TrieStore_Remove_hides_key example_store "ab"
           example_store_wf example_store_short).
Defined.

(** X15 on the example trie. *)
Lemma Put_keeps_pruned_witness :
  heap_wf example_heap ∧ Trie_valid example_heap example_trie ∧
  trie_pruned example_heap example_trie ∧
  ∃ h' t', Put example_heap example_trie "xyz" cpp_int 9%Z = Some (h', t') ∧
    trie_pruned h' t'.
Proof.
  split; [exact example_heap_wf|]. split; [exact example_trie_valid|].
  split; [exact example_trie_pruned|].
  exact (Put_keeps_pruned example_heap example_trie "xyz" cpp_int 9%Z
           example_heap_wf example_trie_valid example_trie_pruned).
Defined.

(** X16 on the example trie. *)
Lemma Remove_keeps_pruned_witness :
  heap_wf example_heap ∧ Trie_valid example_heap example_trie ∧
  trie_pruned example_heap example_trie ∧
  ∃ h' t', Remove example_heap example_trie "ab" = Some (h', t') ∧
    trie_pruned h' t'.
Proof.
  split; [exact example_heap_wf|]. split; [exact example_trie_valid|].
  split; [exact example_trie_pruned|].
  exact (Remove_keeps_pruned example_heap example_trie "ab"
           example_heap_wf example_trie_valid example_trie_pruned).
Defined.
